(** * Verification of the data-mining topic matcher (tools/*.py)

    Shallow embedding of [match_topics.py], [extract_slide_titles.py] and
    [extract_exam_questions.py].

    Modelling conventions:
    - A Python [str] is a list of code points.  The embedding covers Latin-1
      text: a code point 0..255 is an [ascii] (8 bits), and the character
      classes below are Python 3's own classification of those code points
      ([str.isspace], [str.isalnum], [str.lower], regex [\s], [\w], [\d]).
    - A Python [float] is an exact rational [Q]; binary64 rounding of the
      arithmetic is not modelled.
    - A Python [dict] whose iteration order matters (the alias table) is an
      association list in insertion order. *)

From Stdlib Require Import Ascii String List Bool Arith ZArith QArith Lia.
From Stdlib Require Import Qminmax Qabs Qround Lqa Permutation Sorted.
Import ListNotations.

Open Scope list_scope.
Open Scope nat_scope.

(** ** Characters and Python strings *)

Abbreviation pystr := (list ascii).

(** String literal of the development (ASCII text). *)
Definition lit (s : string) : pystr := list_ascii_of_string s.

Definition code (c : ascii) : nat := nat_of_ascii c.

(** [str.isspace] and regex [\s] on Latin-1. *)
Definition is_space (c : ascii) : bool :=
  let n := code c in
  ((9 <=? n) && (n <=? 13)) || ((28 <=? n) && (n <=? 32)) || (n =? 133) || (n =? 160).

Definition is_ascii_digit (c : ascii) : bool :=
  let n := code c in (48 <=? n) && (n <=? 57).

Definition is_ascii_lower (c : ascii) : bool :=
  let n := code c in (97 <=? n) && (n <=? 122).

Definition is_ascii_upper (c : ascii) : bool :=
  let n := code c in (65 <=? n) && (n <=? 90).

(** [str.isalnum] on Latin-1. *)
Definition is_alnum (c : ascii) : bool :=
  let n := code c in
  is_ascii_digit c || is_ascii_lower c || is_ascii_upper c
  || existsb (Nat.eqb n) [170; 178; 179; 181; 185; 186; 188; 189; 190]%nat
  || ((192 <=? n) && negb (n =? 215) && negb (n =? 247)).

(** Regex [\w] (str patterns): alphanumeric or underscore. *)
Definition is_word (c : ascii) : bool := is_alnum c || (code c =? 95).

(** [str.lower] on one Latin-1 code point. *)
Definition lower_char (c : ascii) : ascii :=
  let n := code c in
  if is_ascii_upper c || ((192 <=? n) && (n <=? 222) && negb (n =? 215))
  then ascii_of_nat (n + 32) else c.

Definition lower (s : pystr) : pystr := map lower_char s.

Fixpoint lstrip (s : pystr) : pystr :=
  match s with
  | [] => []
  | c :: r => if is_space c then lstrip r else s
  end.

Definition rstrip (s : pystr) : pystr := rev (lstrip (rev s)).

(** [str.strip()] *)
Definition strip (s : pystr) : pystr := rstrip (lstrip s).

Definition sp : ascii := " "%char.

(** [str.split()] with no argument: split on whitespace runs, no empty
    fields.  [cur] holds the current field, reversed. *)
Fixpoint split_aux (cur : pystr) (s : pystr) : list pystr :=
  match s with
  | [] => match cur with [] => [] | _ => [rev cur] end
  | c :: r =>
      if is_space c
      then match cur with
           | [] => split_aux [] r
           | _ => rev cur :: split_aux [] r
           end
      else split_aux (c :: cur) r
  end.

Definition split_ws (s : pystr) : list pystr := split_aux [] s.

(** [sep.join(l)] *)
Fixpoint join (sep : pystr) (l : list pystr) : pystr :=
  match l with
  | [] => []
  | [x] => x
  | x :: r => x ++ sep ++ join sep r
  end.

(** [re.sub(r"\s+", " ", s)] *)
Fixpoint collapse_ws (in_run : bool) (s : pystr) : pystr :=
  match s with
  | [] => []
  | c :: r =>
      if is_space c
      then if in_run then collapse_ws true r else sp :: collapse_ws true r
      else c :: collapse_ws false r
  end.

(** [_punct_re.sub(" ", t)] with [_punct_re = [^a-z0-9\s]] *)
Definition punct_char (c : ascii) : ascii :=
  if is_ascii_lower c || is_ascii_digit c || is_space c then c else sp.

Definition punct_sub (s : pystr) : pystr := map punct_char s.

Fixpoint ascii_list_eqb (a b : pystr) : bool :=
  match a, b with
  | [], [] => true
  | x :: a', y :: b' => Ascii.eqb x y && ascii_list_eqb a' b'
  | _, _ => false
  end.

Fixpoint is_prefix (p s : pystr) : bool :=
  match p, s with
  | [], _ => true
  | x :: p', y :: s' => Ascii.eqb x y && is_prefix p' s'
  | _ :: _, [] => false
  end.

(** [x in list] for strings. *)
Definition str_in (x : pystr) (l : list pystr) : bool := existsb (ascii_list_eqb x) l.

(** ** Alias table and [normalize] (match_topics.py) *)

Definition opt_word (c : option ascii) : bool :=
  match c with Some c => is_word c | None => false end.

(** Regex [\b] between the characters [prev] and [next]. *)
Definition boundary (prev next : option ascii) : bool :=
  xorb (opt_word prev) (opt_word next).

(** Character before the end of a match of [syn] that starts after [prev]. *)
Definition last_char (prev : option ascii) (syn : pystr) : option ascii :=
  match rev syn with [] => prev | c :: _ => Some c end.

(** Does [\b<syn>\b] match at the position where [rest] starts? *)
Definition word_match_at (syn : pystr) (prev : option ascii) (rest : pystr) : bool :=
  boundary prev (hd_error rest) && is_prefix syn rest
  && boundary (last_char prev syn) (hd_error (skipn (length syn) rest)).

(** [re.sub(rf"\b{re.escape(syn)}\b", canon, t)]: a left-to-right scan for
    non-overlapping matches; [skip] counts the characters of the current
    match still to be consumed.  An empty [syn] matches at every word
    boundary.  The replacement is the literal text [canon], which is what
    [re.sub] inserts for a [canon] without backslashes (all keys of the
    default table); the template escapes ([\n], [\g<...>], group
    references, and the [re.error] of a bad escape) that a user alias key
    with a backslash would trigger are not modelled. *)
Fixpoint sub_word_aux (syn canon : pystr) (skip : nat) (prev : option ascii)
    (rest : pystr) : pystr :=
  match rest with
  | [] =>
      match skip with
      | 0 => if word_match_at syn prev [] then canon else []
      | S _ => []
      end
  | c :: r =>
      match skip with
      | S k => sub_word_aux syn canon k (Some c) r
      | 0 =>
          if word_match_at syn prev rest then
            match syn with
            | [] => canon ++ c :: sub_word_aux syn canon 0 (Some c) r
            | _ :: _ => canon ++ sub_word_aux syn canon (length syn - 1) (Some c) r
            end
          else c :: sub_word_aux syn canon 0 (Some c) r
      end
  end.

Definition sub_word (syn canon t : pystr) : pystr := sub_word_aux syn canon 0 None t.

(** A Python dict [str -> List[str]] in insertion order. *)
Definition alias_table := list (pystr * list pystr).

(** ["naïve bayes"]: the [ï] is the Latin-1 code point 239. *)
Definition naive_diaeresis_bayes : pystr :=
  lit "na" ++ [ascii_of_nat 239] ++ lit "ve bayes".

Definition default_aliases : alias_table :=
  [ (lit "naive bayes", [lit "nb"; naive_diaeresis_bayes]);
    (lit "k-means", [lit "kmeans"; lit "k means"; lit "k-means clustering"]);
    (lit "k-medoids", [lit "kmedoids"; lit "k medoids"]);
    (lit "hierarchical clustering",
      [lit "agglomerative clustering"; lit "divisive clustering"]);
    (lit "principal component analysis", [lit "pca"]);
    (lit "support vector machine",
      [lit "svm"; lit "support vector machines"; lit "support vector classifier"]);
    (lit "decision tree", [lit "dt"; lit "id3"; lit "c4.5"; lit "cart"]);
    (lit "association rules",
      [lit "apriori"; lit "fp growth"; lit "frequent pattern"; lit "market basket"]);
    (lit "outlier detection", [lit "anomaly detection"]);
    (lit "feature selection", [lit "attribute selection"]);
    (lit "data preprocessing",
      [lit "data preparation"; lit "data cleaning"; lit "data cleansing"]);
    (lit "distance measures",
      [lit "similarity measures"; lit "dissimilarity"; lit "proximity"]);
    (lit "logistic regression", [lit "logit"]);
    (lit "linear regression", [lit "ols"]);
    (lit "neural networks", [lit "ann"; lit "mlp"]);
    (lit "k-nearest neighbors", [lit "knn"; lit "k nn"; lit "k-nn"]);
    (lit "dimensionality reduction", [lit "feature extraction"]);
    (lit "cross validation", [lit "k-fold"; lit "k fold"]) ].

(** [d[k] = v]: overwrite in place, or append a new key. *)
Fixpoint dict_set (k : pystr) (v : list pystr) (d : alias_table) : alias_table :=
  match d with
  | [] => [(k, v)]
  | (k', v') :: r =>
      if ascii_list_eqb k k' then (k', v) :: r else (k', v') :: dict_set k v r
  end.

Fixpoint dict_get (k : pystr) (d : alias_table) : list pystr :=
  match d with
  | [] => []
  | (k', v) :: r => if ascii_list_eqb k k' then v else dict_get k r
  end.

(** [load_aliases]: [user] is the decoded JSON mapping, [None] when no path
    is given or the file cannot be read or decoded. *)
Definition load_aliases (user : option alias_table) : alias_table :=
  match user with
  | None => default_aliases
  | Some u =>
      fold_left (fun d '(k, v) => dict_set (lower k) (map lower v) d) u default_aliases
  end.

(** Stable insertion sort: [before x y] is the strict order of the sort key,
    equal keys keep their input order (as Python's [sorted] and
    [list.sort], also with [reverse=True]). *)
Fixpoint insert_by {A} (before : A -> A -> bool) (x : A) (l : list A) : list A :=
  match l with
  | [] => [x]
  | y :: r => if before x y then x :: l else y :: insert_by before x r
  end.

Definition stable_sort {A} (before : A -> A -> bool) (l : list A) : list A :=
  fold_left (fun acc x => insert_by before x acc) l [].

(** [sorted(aliases.keys(), key=len, reverse=True)] *)
Definition sorted_keys (aliases : alias_table) : list pystr :=
  stable_sort (fun x y => length y <? length x) (map fst aliases).

Definition apply_aliases (aliases : alias_table) (t : pystr) : pystr :=
  fold_left
    (fun t canon => fold_left (fun t syn => sub_word syn canon t) (dict_get canon aliases) t)
    (sorted_keys aliases) t.

Definition STOPWORDS : list pystr :=
  map lit ["the"; "a"; "an"; "of"; "and"; "or"; "to"; "for"; "from"; "in"; "on";
           "with"; "without"; "by"; "as"; "at"; "into"; "over"; "under"; "between";
           "among"; "against"]%string.

Definition not_stopword (w : pystr) : bool := negb (str_in w STOPWORDS).

Definition normalize (aliases : alias_table) (text : pystr) : pystr :=
  let t := strip (lower text) in
  let t := apply_aliases aliases t in
  let t := punct_sub t in
  let t := strip (collapse_ws false t) in
  join [sp] (filter not_stopword (split_ws t)).

(** [tokens(text)] *)
Definition tokens (text : pystr) : list pystr :=
  filter (fun w => match w with [] => false | _ => true end) (split_ws text).

(** ** Similarity scorer *)

Open Scope Q_scope.

(** Python's [x < y] on floats. *)
Definition Qlt_bool (x y : Q) : bool := negb (Qle_bool y x).

(** Distinct elements in first-occurrence order, [seen] being the elements
    already kept: [set(xs)] as far as sizes go, and the order-preserving
    deduplication of [extract_questions]. *)
Fixpoint dedup_aux (seen : list pystr) (l : list pystr) : list pystr :=
  match l with
  | [] => []
  | x :: r => if str_in x seen then dedup_aux seen r else x :: dedup_aux (x :: seen) r
  end.

Definition dedup (l : list pystr) : list pystr := dedup_aux [] l.

(** [len(a & b)] and [len(a | b)] for [a = set(xs)], [b = set(ys)]. *)
Definition inter_size (a b : list pystr) : nat := length (filter (fun x => str_in x b) a).
Definition union_size (a b : list pystr) : nat :=
  (length a + length (filter (fun y => negb (str_in y a)) b))%nat.

Definition jaccard (a_tokens b_tokens : list pystr) : Q :=
  match a_tokens, b_tokens with
  | [], _ | _, [] => 0
  | _, _ =>
      let a := dedup a_tokens in
      let b := dedup b_tokens in
      let inter := inter_size a b in
      let union := union_size a b in
      if (union =? 0)%nat then 0 else inject_Z (Z.of_nat inter) / inject_Z (Z.of_nat union)
  end.

Definition token_overlap (a_tokens b_tokens : list pystr) : Q :=
  match a_tokens, b_tokens with
  | [], _ | _, [] => 0
  | _, _ =>
      let a := dedup a_tokens in
      let b := dedup b_tokens in
      let inter := inter_size a b in
      let denom := Nat.min (length a) (length b) in
      if (denom =? 0)%nat then 0 else inject_Z (Z.of_nat inter) / inject_Z (Z.of_nat denom)
  end.

(** [difflib.SequenceMatcher(None, a, b)] as far as [ratio()] uses it:
    [isjunk] is [None] and [autojunk] is on. *)
Module Difflib.

Definition char_at (s : pystr) (i : nat) : ascii := nth i s Ascii.zero.

(** [__chain_b]: with [len(b) >= 200], the elements occurring more than
    [len(b) // 100 + 1] times in [b] are popular and dropped from [b2j]. *)
Definition popular (b : pystr) (c : ascii) : bool :=
  let n := length b in
  (200 <=? n)%nat && (n / 100 + 1 <? count_occ ascii_dec b c)%nat.

(** [j2len[j]] after row [i] of [find_longest_match]: the length of the
    run of equal, non-popular elements ending at [a[i]], [b[j]], within
    [b[blo:]]; [n] is the number of rows [i - alo + 1] scanned so far. *)
Fixpoint run_len (a b : pystr) (blo n i j : nat) : nat :=
  match n with
  | O => O
  | S n' =>
      if (blo <=? j)%nat && negb (popular b (char_at b j)) && Ascii.eqb (char_at a i) (char_at b j)
      then S (match i, j with
              | S i', S j' => run_len a b blo n' i' j'
              | _, _ => O
              end)
      else O
  end.

(** The double loop of [find_longest_match]: rows [i] ascending, columns
    [j] ascending, the best block replaced only by a strictly longer one. *)
Definition scan (a b : pystr) (alo ahi blo bhi : nat) : nat * nat * nat :=
  fold_left
    (fun best i =>
       fold_left
         (fun best j =>
            let k := run_len a b blo (i - alo + 1) i j in
            let '(_, _, bestsize) := best in
            if (bestsize <? k)%nat then ((i + 1 - k)%nat, (j + 1 - k)%nat, k) else best)
         (seq blo (bhi - blo)) best)
    (seq alo (ahi - alo)) (alo, blo, O).

(** [while besti > alo and bestj > blo and a[besti-1] == b[bestj-1]]:
    [m] is the number of steps the first two guards allow. *)
Fixpoint extend_back (a b : pystr) (m i j k : nat) : nat * nat * nat :=
  match m with
  | O => (i, j, k)
  | S m' =>
      match i, j with
      | S i', S j' =>
          if Ascii.eqb (char_at a i') (char_at b j') then extend_back a b m' i' j' (S k)
          else (i, j, k)
      | _, _ => (i, j, k)
      end
  end.

(** [while besti+bestsize < ahi and bestj+bestsize < bhi and
    a[besti+bestsize] == b[bestj+bestsize]] *)
Fixpoint extend_fwd (a b : pystr) (m i j k : nat) : nat * nat * nat :=
  match m with
  | O => (i, j, k)
  | S m' =>
      if Ascii.eqb (char_at a (i + k)) (char_at b (j + k)) then extend_fwd a b m' i j (S k)
      else (i, j, k)
  end.

(** [find_longest_match(alo, ahi, blo, bhi)]; the two loops that extend the
    block over junk elements never run, as [bjunk] is empty. *)
Definition find_longest_match (a b : pystr) (alo ahi blo bhi : nat) : nat * nat * nat :=
  let '(i, j, k) := scan a b alo ahi blo bhi in
  let '(i, j, k) := extend_back a b (Nat.min (i - alo) (j - blo)) i j k in
  extend_fwd a b (Nat.min (ahi - (i + k)) (bhi - (j + k))) i j k.

(** Sum of the sizes of [get_matching_blocks()]: the queue of sub-ranges
    is unfolded as a recursion (the order in which the queue is processed
    does not change the set of blocks).  [fuel] bounds the recursion depth;
    every call with [k > 0] shrinks [ahi - alo]. *)
Fixpoint matched (fuel : nat) (a b : pystr) (alo ahi blo bhi : nat) : nat :=
  match fuel with
  | O => O
  | S f =>
      let '(i, j, k) := find_longest_match a b alo ahi blo bhi in
      if (k =? 0)%nat then O
      else (k
            + (if (alo <? i)%nat && (blo <? j)%nat then matched f a b alo i blo j else O)
            + (if (i + k <? ahi)%nat && (j + k <? bhi)%nat
               then matched f a b (i + k) ahi (j + k) bhi else O))%nat
  end.

Definition matches (a b : pystr) : nat :=
  matched (S (length a)) a b 0 (length a) 0 (length b).

(** [ratio()] = [_calculate_ratio(matches, len(a) + len(b))] *)
Definition ratio (a b : pystr) : Q :=
  let len := (length a + length b)%nat in
  if (len =? 0)%nat then 1
  else 2 * inject_Z (Z.of_nat (matches a b)) / inject_Z (Z.of_nat len).

End Difflib.

Definition char_similarity (a b : pystr) : Q := Difflib.ratio a b.

Definition combined_score (a b : pystr) : Q :=
  let a_toks := tokens a in
  let b_toks := tokens b in
  let j := jaccard a_toks b_toks in
  let o := token_overlap a_toks b_toks in
  let c := char_similarity a b in
  (40 # 100) * c + (30 # 100) * j + (30 # 100) * o.

Definition confidence (score : Q) : pystr :=
  if Qle_bool (85 # 100) score then lit "high"
  else if Qle_bool (70 # 100) score then lit "medium"
  else lit "low".

(** ** Artifact parsing *)

Definition bar : ascii := "|"%char.

(** [s.split("|", 1)] when ["|" in s]: the parts before and after the
    first bar. *)
Fixpoint split_bar (s : pystr) : option (pystr * pystr) :=
  match s with
  | [] => None
  | c :: r =>
      if Ascii.eqb c bar then Some ([], r)
      else match split_bar r with
           | Some (l, rt) => Some (c :: l, rt)
           | None => None
           end
  end.

Definition digit_value (c : ascii) : Z := Z.of_nat (code c - 48).

(** Digits with single underscores between them, as [int()] accepts them;
    [after_digit] says whether the previous character was a digit. *)
Fixpoint parse_digits (after_digit : bool) (acc : Z) (s : pystr) : option Z :=
  match s with
  | [] => if after_digit then Some acc else None
  | c :: r =>
      if is_ascii_digit c then parse_digits true (10 * acc + digit_value c)%Z r
      else if (code c =? 95)%nat && after_digit then
        match r with
        | d :: _ => if is_ascii_digit d then parse_digits false acc r else None
        | [] => None
        end
      else None
  end.

(** [int(s)] for a base-10 string; [None] stands for [ValueError]. *)
Definition py_int (s : pystr) : option Z :=
  match strip s with
  | c :: r =>
      if Ascii.eqb c "-"%char then option_map Z.opp (parse_digits false 0 r)
      else if Ascii.eqb c "+"%char then parse_digits false 0 r
      else parse_digits false 0 (c :: r)
  | [] => None
  end.

Definition slide_entry := (option Z * pystr)%type.

(** One line of [parse_slides]. *)
Definition parse_slide_line (raw : pystr) : list slide_entry :=
  let s := strip raw in
  match s with
  | [] => []
  | _ =>
      match split_bar s with
      | Some (left_part, right_part) =>
          let '(page, rest) :=
            match py_int (strip left_part) with
            | Some p => (Some p, right_part)
            | None => (None, s)
            end in
          let topic := strip rest in
          match topic with [] => [] | _ => [(page, topic)] end
      | None => [(None, s)]
      end
  end.

Definition parse_slides (lines : list pystr) : list slide_entry :=
  flat_map parse_slide_line lines.

Definition parse_exam_line (raw : pystr) : list pystr :=
  let s := strip raw in
  match s with
  | [] => []
  | _ => if (length s <? 4)%nat then [] else [s]
  end.

Definition parse_exam (lines : list pystr) : list pystr := flat_map parse_exam_line lines.

(** ** Matcher *)

Record MatchRecord := mkMatchRecord {
  page : option Z;
  slide_topic : pystr;
  exam_question : pystr;
  score : Q;
  rec_confidence : pystr
}.

(** [round(x, 3)]: the exact value rounded half to even at 3 decimals. *)
Definition round_half_even (x : Q) : Z :=
  let fl := (Qnum x / Zpos (Qden x))%Z in
  let frac := x - inject_Z fl in
  if Qlt_bool frac (1 # 2) then fl
  else if Qlt_bool (1 # 2) frac then (fl + 1)%Z
  else if Z.even fl then fl else (fl + 1)%Z.

Definition round3 (x : Q) : Q := inject_Z (round_half_even (x * 1000)) / 1000.

(** [l[:k]] *)
Definition slice_upto {A} (l : list A) (k : Z) : list A :=
  if (0 <=? k)%Z then firstn (Z.to_nat k) l
  else firstn (Z.to_nat (Z.of_nat (length l) + k)) l.

(** [list.remove(x)] when [x in list]: drop the first occurrence. *)
Fixpoint remove_first (x : pystr) (l : list pystr) : list pystr :=
  match l with
  | [] => []
  | y :: r => if ascii_list_eqb x y then r else y :: remove_first x r
  end.

(** [scored], before sorting: the questions scoring at least [min_score]. *)
Definition score_candidates (min_score : Q) (norm_topic : pystr)
    (norm_exam : list (pystr * pystr)) : list (Q * pystr) :=
  fold_left
    (fun scored '(orig_q, norm_q) =>
       let s := combined_score norm_topic norm_q in
       if Qle_bool min_score s then scored ++ [(s, orig_q)] else scored)
    norm_exam [].

(** [scored.sort(key=lambda x: x[0], reverse=True)] *)
Definition sort_by_score (scored : list (Q * pystr)) : list (Q * pystr) :=
  stable_sort (fun x y => Qlt_bool (fst y) (fst x)) scored.

Record MatchState := mkMatchState {
  results : list MatchRecord;
  unmatched_slides : list slide_entry;
  unmatched_exam : list pystr
}.

(** Body of [for s, q in top]. *)
Definition emit (page0 : option Z) (topic : pystr) (st : MatchState) (sq : Q * pystr)
    : MatchState :=
  let '(s, q) := sq in
  let ue := if str_in q (unmatched_exam st) then remove_first q (unmatched_exam st)
            else unmatched_exam st in
  mkMatchState
    (results st ++ [mkMatchRecord page0 topic q (round3 s) (confidence s)])
    (unmatched_slides st) ue.

(** Body of [for page, topic in slides]. *)
Definition topic_step (aliases : alias_table) (min_score : Q) (max_matches : Z)
    (norm_exam : list (pystr * pystr)) (st : MatchState) (pt : slide_entry) : MatchState :=
  let '(page0, topic) := pt in
  let norm_topic := normalize aliases topic in
  let scored := sort_by_score (score_candidates min_score norm_topic norm_exam) in
  let top := slice_upto scored max_matches in
  match top with
  | [] => mkMatchState (results st) (unmatched_slides st ++ [pt]) (unmatched_exam st)
  | _ => fold_left (emit page0 topic) top st
  end.

Definition match_topics (slides : list slide_entry) (exam : list pystr)
    (aliases : alias_table) (min_score : Q) (max_matches : Z)
    : list MatchRecord * list slide_entry * list pystr :=
  let norm_exam := map (fun q => (q, normalize aliases q)) exam in
  let st := fold_left (topic_step aliases min_score max_matches norm_exam) slides
              (mkMatchState [] [] exam) in
  (results st, unmatched_slides st, unmatched_exam st).

(** ** Title selector (extract_slide_titles.py) *)

Module SlideTitles.

Record LineInfo := mkLineInfo {
  page : nat;
  text : pystr;
  x0 : Q; y0 : Q; x1 : Q; y1 : Q;
  avg_size : Q
}.

(** A text line of the layout extractor: its text, bounding box and the
    sizes of its [LTChar] glyphs. *)
Record LayoutLine := mkLayoutLine {
  raw_text : pystr;
  bbox : Q * Q * Q * Q;
  char_sizes : list Q
}.

Definition mean (l : list Q) : Q :=
  fold_left Qplus l 0 / inject_Z (Z.of_nat (length l)).

Definition line_avg_font_size (ln : LayoutLine) : option Q :=
  match char_sizes ln with [] => None | l => Some (mean l) end.

(** The loop collecting [lines] of one page. *)
Definition collect_lines (page_idx : nat) (layout : list LayoutLine) : list LineInfo :=
  flat_map
    (fun ln =>
       let t := strip (raw_text ln) in
       match t with
       | [] => []
       | _ =>
           match line_avg_font_size ln with
           | None => []
           | Some sz => let '(a, b, c, d) := bbox ln in [mkLineInfo page_idx t a b c d sz]
           end
       end)
    layout.

(** Sort key [(ln.avg_size, ln.y1)] with [reverse=True]. *)
Definition title_before (x y : LineInfo) : bool :=
  Qlt_bool (avg_size y) (avg_size x)
  || (Qeq_bool (avg_size y) (avg_size x) && Qlt_bool (y1 y) (y1 x)).

Definition page_height_or_default (page_height : option Q) : Q :=
  match page_height with
  | Some h => if Qeq_bool h 0 then 842 else h
  | None => 842
  end.

(** Title choice of a page with lines.  Returns the title and the list
    [lines] as it is afterwards: in the fallback case [top_lines] is the
    very list object [lines], so [top_lines.sort(...)] reorders [lines]. *)
Definition select_title (page_height : option Q) (top_ratio : Q)
    (lines : list LineInfo) : option (LineInfo * list LineInfo) :=
  let top_cut := page_height_or_default page_height * (1 - top_ratio) in
  match filter (fun ln => Qle_bool top_cut (y1 ln)) lines with
  | [] =>
      let sorted := stable_sort title_before lines in
      match sorted with t :: _ => Some (t, sorted) | [] => None end
  | top_lines =>
      match stable_sort title_before top_lines with
      | t :: _ => Some (t, lines)
      | [] => None
      end
  end.

(** [candidates_below], sorted by [abs(ln.y1 - title.y0)]. *)
Definition candidates_below (title : LineInfo) (lines : list LineInfo) : list LineInfo :=
  stable_sort
    (fun u v => Qlt_bool (Qabs (y1 u - y0 title)) (Qabs (y1 v - y0 title)))
    (filter
       (fun ln => Qlt_bool (y0 ln) (y0 title)
                  && Qle_bool 0 (Qabs (avg_size ln - avg_size title)
                                 / Qmax (avg_size title) (1 # 1000000)))
       lines).

(** The test of the merge loop for one candidate; [None] when
    [size_similarity] divides by zero ([ZeroDivisionError]). *)
Definition merge_test (merge_threshold : Q) (title ln : LineInfo) : option bool :=
  let mx := Qmax (avg_size title) (avg_size ln) in
  if Qeq_bool mx 0 then None
  else
    let size_similarity := Qmin (avg_size title) (avg_size ln) / mx in
    let vertically_close := Qle_bool (y0 title - y1 ln) (avg_size title * (16 # 10)) in
    let horizontally_aligned :=
      Qle_bool (Qabs (x0 ln - x0 title)) (Qmax 10 (avg_size title * (8 # 10))) in
    Some (Qle_bool merge_threshold size_similarity && vertically_close
          && horizontally_aligned).

Definition merge_text (t u : pystr) : pystr := strip (t ++ [sp] ++ u).

(** [for ln in candidates_below: ... break] *)
Fixpoint merge_loop (merge_threshold : Q) (title : LineInfo) (cands : list LineInfo)
    : option pystr :=
  match cands with
  | [] => Some (text title)
  | ln :: r =>
      match merge_test merge_threshold title ln with
      | None => None
      | Some true => Some (merge_text (text title) (text ln))
      | Some false => merge_loop merge_threshold title r
      end
  end.

(** One page of [extract_titles]; [None] is an uncaught exception. *)
Definition extract_title_page (page_idx : nat) (page_height : option Q)
    (lines : list LineInfo) (top_ratio merge_threshold : Q) : option (nat * pystr) :=
  match lines with
  | [] => Some (page_idx, [])
  | _ =>
      match select_title page_height top_ratio lines with
      | None => None
      | Some (title, lines') =>
          option_map (fun t => (page_idx, t))
            (merge_loop merge_threshold title (candidates_below title lines'))
      end
  end.

(** [extract_titles] over the pages of the layout extractor, numbered from 1. *)
Fixpoint extract_titles_from (page_idx : nat) (pages : list (option Q * list LayoutLine))
    (top_ratio merge_threshold : Q) : option (list (nat * pystr)) :=
  match pages with
  | [] => Some []
  | (h, layout) :: r =>
      match extract_title_page page_idx h (collect_lines page_idx layout)
              top_ratio merge_threshold,
            extract_titles_from (S page_idx) r top_ratio merge_threshold with
      | Some x, Some xs => Some (x :: xs)
      | _, _ => None
      end
  end.

Definition extract_titles (pages : list (option Q * list LayoutLine))
    (top_ratio merge_threshold : Q) : option (list (nat * pystr)) :=
  extract_titles_from 1 pages top_ratio merge_threshold.

End SlideTitles.

(** ** Question segmentation (extract_exam_questions.py) *)

Module ExamQuestions.

Record Line := mkLine {
  page : nat;
  text : pystr;
  x0 : Q; y0 : Q; x1 : Q; y1 : Q;
  avg_size : Q
}.

Fixpoint digit_run (s : pystr) : nat :=
  match s with
  | c :: r => if is_ascii_digit c then S (digit_run r) else O
  | [] => O
  end.

Definition char_is (p : ascii -> bool) (s : pystr) (i : nat) : bool :=
  match nth_error s i with Some c => p c | None => false end.

Definition is_code (n : nat) (c : ascii) : bool := (code c =? n)%nat.

(** [HEADER_RE.match(text.lower())] with
    [^(?:page\s*\d+|\d{4}|section|part|final|midterm|exam)\b]. *)
Definition word_end (s : pystr) (i : nat) : bool := negb (char_is is_word s i).

Definition header_page (t : pystr) : bool :=
  is_prefix (lit "page") t &&
  (let r := lstrip (skipn 4 t) in
   let d := digit_run r in
   (0 <? d)%nat && word_end r d).

Definition header_year (t : pystr) : bool := (4 <=? digit_run t)%nat && word_end t 4.

Definition header_word (w t : pystr) : bool := is_prefix w t && word_end t (length w).

Definition header_match (t : pystr) : bool :=
  header_page t || header_year t
  || existsb (fun w => header_word (lit w) t)
       ["section"; "part"; "final"; "midterm"; "exam"]%string.

(** [BULLET_RE = ^(?:[-•∙•◦·]|\d{1,3}[.)]|\(?\d{1,3}\)?[.)]?|[a-zA-Z][.)])\s+]:
    the lengths the alternatives can match, in the order the regex engine
    tries them; of the bullet symbols only [-] and [·] (183) are Latin-1. *)
Definition dot_or_paren (c : ascii) : bool := is_code 46 c || is_code 41 c.

Definition opt_one (b : bool) : list nat := if b then [1%nat; 0%nat] else [0%nat].

Definition digit_counts (s : pystr) : list nat := rev (seq 1 (Nat.min 3 (digit_run s))).

Definition bullet_alt1 (s : pystr) : list nat :=
  if char_is (fun c => is_code 45 c || is_code 183 c) s 0 then [1%nat] else [].

Definition bullet_alt2 (s : pystr) : list nat :=
  flat_map (fun d => if char_is dot_or_paren s d then [S d] else []) (digit_counts s).

Definition bullet_alt3 (s : pystr) : list nat :=
  flat_map (fun p =>
    flat_map (fun d =>
      flat_map (fun q =>
        map (fun r => (p + d + q + r)%nat)
          (opt_one (char_is dot_or_paren s (p + d + q))))
        (opt_one (char_is (is_code 41) s (p + d))))
      (digit_counts (skipn p s)))
    (opt_one (char_is (is_code 40) s 0)).

Definition bullet_alt4 (s : pystr) : list nat :=
  if char_is (fun c => is_ascii_lower c || is_ascii_upper c) s 0 && char_is dot_or_paren s 1
  then [2%nat] else [].

Fixpoint space_run (s : pystr) : nat :=
  match s with
  | c :: r => if is_space c then S (space_run r) else O
  | [] => O
  end.

(** Length of the [BULLET_RE] match at the start of [s], if any: the first
    alternative length followed by whitespace, plus the greedy [\s+]. *)
Definition bullet_match (s : pystr) : option nat :=
  match find (fun n => char_is is_space s n)
              (bullet_alt1 s ++ bullet_alt2 s ++ bullet_alt3 s ++ bullet_alt4 s) with
  | Some n => Some (n + space_run (skipn n s))%nat
  | None => None
  end.

Fixpoint ends_with_qmark (s : pystr) : bool :=
  match s with
  | [] => false
  | [c] => is_code 63 c
  | _ :: r => ends_with_qmark r
  end.

Record SegState := mkSegState {
  items : list pystr;
  buf : list pystr;
  last_y : option Q;
  last_size : option Q
}.

(** [flush()] *)
Definition flush (st : SegState) : SegState :=
  let items' :=
    match buf st with
    | [] => items st
    | b =>
        let s := collapse_ws false (strip (join [sp] (map strip b))) in
        match s with [] => items st | _ => items st ++ [s] end
    end in
  mkSegState items' [] (last_y st) (last_size st).

Definition gap_threshold (last_size : Q) : Q := Qmax 20 ((22 # 10) * last_size).

(** [if last_y is not None and last_size is not None: ... if gap > ...] *)
Definition gap_flushes (st : SegState) (ln : Line) : bool :=
  match last_y st, last_size st with
  | Some ly, Some ls => Qlt_bool (gap_threshold ls) (ly - y1 ln)
  | _, _ => false
  end.

(** The state and line text just before [buf.append(text)]. *)
Definition before_append (st : SegState) (ln : Line) : SegState * pystr :=
  let st := if gap_flushes st ln then flush st else st in
  match bullet_match (text ln) with
  | Some n => (flush st, skipn n (text ln))
  | None => (st, text ln)
  end.

(** One iteration of [for ln in lines]. *)
Definition step (st : SegState) (ln : Line) : SegState :=
  if header_match (lower (text ln)) then st
  else
    let '(st, t) := before_append st ln in
    let st := mkSegState (items st) (buf st ++ [t]) (last_y st) (last_size st) in
    let st := if ends_with_qmark (rstrip t) then flush st else st in
    mkSegState (items st) (buf st) (Some (y1 ln))
      (if Qeq_bool (avg_size ln) 0 then last_size st else Some (avg_size ln)).

Definition init : SegState := mkSegState [] [] None None.

Definition extract_questions (lines : list Line) : list pystr :=
  dedup (items (flush (fold_left step lines init))).

End ExamQuestions.

(** ** Auxiliary predicates used in the statements *)

(** Does [w] occur in [t] as a whole-word match ([re.search(rf"\b{w}\b", t)])? *)
Fixpoint has_word_aux (w : pystr) (prev : option ascii) (rest : pystr) : bool :=
  word_match_at w prev rest
  || match rest with [] => false | c :: r => has_word_aux w (Some c) r end.

Definition has_word (w t : pystr) : bool := has_word_aux w None t.

(** The (canonical, synonym) pairs of an alias table. *)
Definition alias_pairs (al : alias_table) : list (pystr * pystr) :=
  flat_map (fun '(c, ss) => map (fun s => (c, s)) ss) al.

(** The test string of the alias property: ["... " + s + " ..."]. *)
Definition in_dots (s : pystr) : pystr := lit "... " ++ s ++ lit " ...".

(** Number of records whose topic is [t]. *)
Definition topic_count (t : pystr) (res : list MatchRecord) : nat :=
  length (filter (fun r => ascii_list_eqb (slide_topic r) t) res).

(** Number of records whose question is [q]. *)
Definition question_count (q : pystr) (res : list MatchRecord) : nat :=
  length (filter (fun r => ascii_list_eqb (exam_question r) q) res).

(** Number of occurrences of [q] in a list of strings. *)
Definition str_count (q : pystr) (l : list pystr) : nat :=
  length (filter (ascii_list_eqb q) l).

(** ** Basic lemmas *)

Lemma ascii_list_eqb_eq (a b : pystr) : ascii_list_eqb a b = true <-> a = b.
Proof.
  revert b; induction a as [|x a IH]; intros [|y b]; simpl; try (split; congruence).
  rewrite andb_true_iff, IH, Ascii.eqb_eq. split.
  - intros [-> ->]; reflexivity.
  - intros H; inversion H; auto.
Qed.

Lemma ascii_list_eqb_refl (a : pystr) : ascii_list_eqb a a = true.
Proof. apply ascii_list_eqb_eq; reflexivity. Qed.

Lemma str_in_In (x : pystr) (l : list pystr) : str_in x l = true <-> In x l.
Proof.
  unfold str_in; rewrite existsb_exists; split.
  - intros [y [Hy Heq]]; apply ascii_list_eqb_eq in Heq; subst; assumption.
  - intros H; exists x; split; [assumption | apply ascii_list_eqb_refl].
Qed.

(** ** C5: alias substitution on the default table *)

Definition is_hyphen (c : ascii) : bool := (code c =? 45)%nat.

(** The property checked for one (canonical, synonym) pair. *)
Definition alias_pair_check (c s : pystr) : bool :=
  let o := normalize default_aliases (in_dots s) in
  ascii_list_eqb o (normalize default_aliases c)
  && (negb (has_word s o) || ascii_list_eqb s o)
  && Bool.eqb (has_word c o) (negb (existsb is_hyphen c)).

Lemma alias_pair_check_default :
  forallb (fun '(c, s) => alias_pair_check c s) (alias_pairs default_aliases) = true.
Proof. vm_compute. reflexivity. Qed.

(** C5 (counterexample): for the pair ("k-means", "k means") of the default
    table, [normalize("... k means ...")] is ["k means"]: it does not contain
    the canonical term ["k-means"] and still contains the synonym. *)
Lemma alias_substitution_counterexample :
  In (lit "k-means", lit "k means") (alias_pairs default_aliases) /\
  normalize default_aliases (in_dots (lit "k means")) = lit "k means" /\
  has_word (lit "k-means") (normalize default_aliases (in_dots (lit "k means"))) = false /\
  has_word (lit "k means") (normalize default_aliases (in_dots (lit "k means"))) = true.
Proof.
  split; [simpl; tauto |].
  split; [vm_compute; reflexivity |].
  split; vm_compute; reflexivity.
Qed.

(** C5 (amended): for every pair (c, s) of the default alias table,
    [normalize("... " + s + " ...")] equals [normalize(c)], the canonical
    term with its punctuation turned into spaces; c occurs in it as a whole
    word exactly when c has no hyphen, and s occurs in it as a whole word
    only when s is the whole output (the pairs ("k-means", "k means") and
    ("k-medoids", "k medoids")). *)
Theorem alias_substitution_default_table (c s : pystr) :
  In (c, s) (alias_pairs default_aliases) ->
  normalize default_aliases (in_dots s) = normalize default_aliases c /\
  (has_word s (normalize default_aliases (in_dots s)) = true ->
   s = normalize default_aliases (in_dots s)) /\
  (has_word c (normalize default_aliases (in_dots s)) = true <->
   existsb is_hyphen c = false).
Proof.
  intros Hin.
  pose proof alias_pair_check_default as Hall.
  rewrite forallb_forall in Hall.
  specialize (Hall (c, s) Hin); simpl in Hall.
  unfold alias_pair_check in Hall.
  apply andb_true_iff in Hall as [Hall H3].
  apply andb_true_iff in Hall as [H1 H2].
  apply ascii_list_eqb_eq in H1.
  apply Bool.eqb_prop in H3.
  split; [exact H1 |]. split.
  - intros Hw. rewrite Hw in H2; simpl in H2. apply ascii_list_eqb_eq in H2; exact H2.
  - rewrite H3. destruct (existsb is_hyphen c); simpl; split; congruence.
Qed.

Lemma alias_substitution_default_table_witness :
  In (lit "naive bayes", lit "nb") (alias_pairs default_aliases) /\
  normalize default_aliases (in_dots (lit "nb")) = normalize default_aliases (lit "naive bayes").
Proof.
  assert (H : In (lit "naive bayes", lit "nb") (alias_pairs default_aliases))
    by (simpl; tauto).
  split; [exact H |].
  exact (proj1 (alias_substitution_default_table (lit "naive bayes") (lit "nb") H)).
Defined.

(** ** C1, C2: the matcher's per-topic cap and minimum score on examples *)

(** C1 (counterexample): the topic string "clustering" given for pages 1
    and 2, with [maxMatches = 1], yields two records with that topic. *)
Lemma match_cap_counterexample :
  let '(res, _, _) :=
    match_topics [(Some 1%Z, lit "clustering"); (Some 2%Z, lit "clustering")]
      [lit "clustering"] default_aliases (1 # 2) 1 in
  topic_count (lit "clustering") res = 2%nat.
Proof. vm_compute. reflexivity. Qed.

(** C2 (counterexample): topic "x" against question "xbcdef" scores
    [0.4 * 2/7 = 4/35 = 0.11428...], which passes [minScore = 0.1141];
    the stored score [round(4/35, 3) = 0.114] is below [minScore]. *)
Lemma min_score_counterexample :
  let '(res, _, _) :=
    match_topics [(None, lit "x")] [lit "xbcdef"] default_aliases (1141 # 10000) 2 in
  map score res = [114 # 1000] /\ 114 # 1000 < 1141 # 10000.
Proof. vm_compute. split; [reflexivity | reflexivity]. Qed.

(** ** C6: the continuation merge on an example page *)

Module TitleExample.
Import SlideTitles.

Definition title_line : LineInfo := mkLineInfo 1 (lit "Decision") 50 700 300 720 20.
(** Closest line below: smaller glyphs, fails the size test. *)
Definition small_line : LineInfo := mkLineInfo 1 (lit "by Prof. X") 50 680 200 690 10.
(** Farther line below: same glyph size, 25 below the title, aligned. *)
Definition second_line : LineInfo := mkLineInfo 1 (lit "Trees") 50 660 200 675 20.

Definition page_lines : list LineInfo := [title_line; small_line; second_line].

End TitleExample.

(** A page with no line in the top area: the title [T] (size 20) and two
    lines [A] (size 18) and [B] (size 19) at the same distance below it. *)
Module TieExample.
Import SlideTitles.

Definition t_line : LineInfo := mkLineInfo 1 (lit "T") 50 100 200 120 20.
Definition a_line : LineInfo := mkLineInfo 1 (lit "A") 50 70 200 90 18.
Definition b_line : LineInfo := mkLineInfo 1 (lit "B") 50 70 200 90 19.
Definition page_lines : list LineInfo := [t_line; a_line; b_line].

End TieExample.

(** C6 (counterexample): the line closest below the title fails the size
    test, and the next candidate, farther below, is merged. *)
Lemma title_merge_counterexample :
  let lines := TitleExample.page_lines in
  SlideTitles.select_title None (35 # 100) lines = Some (TitleExample.title_line, lines) /\
  SlideTitles.candidates_below TitleExample.title_line lines
    = [TitleExample.small_line; TitleExample.second_line] /\
  SlideTitles.merge_test (9 # 10) TitleExample.title_line TitleExample.small_line = Some false /\
  SlideTitles.extract_title_page 1 None lines (35 # 100) (9 # 10) = Some (1%nat, lit "Decision Trees").
Proof. vm_compute. repeat split; reflexivity. Qed.

(** ** C7: normalization of a string without synonyms *)

(** C7 (counterexample): "fp of growth" contains no synonym of the default
    table (the alias stage leaves it unchanged), [normalize] gives
    "fp growth", and normalizing again gives "association rules". *)
Lemma normalize_idempotence_counterexample :
  apply_aliases default_aliases (strip (lower (lit "fp of growth"))) = lit "fp of growth" /\
  normalize default_aliases (lit "fp of growth") = lit "fp growth" /\
  normalize default_aliases (normalize default_aliases (lit "fp of growth"))
    = lit "association rules".
Proof. vm_compute. repeat split; reflexivity. Qed.

(** ** C8: the gap split on an example *)

Module GapExample.
Import ExamQuestions.

(** A line without glyph sizes ([avg_font_size] gives 0.0), then a line 50
    units lower. *)
Definition first_line : Line := mkLine 1 (lit "Alpha") 50 90 200 100 0.
Definition second_line : Line := mkLine 1 (lit "Beta") 50 40 200 50 10.
(** The same first line with glyph size 10. *)
Definition sized_first_line : Line := mkLine 1 (lit "Alpha") 50 90 200 100 10.

End GapExample.

(** C8 (counterexample): the gap 50 exceeds [max(20, 2.2 * 0) = 20], yet
    the two lines form one item: the first line's glyph size 0 is not
    recorded, so no gap test is made before the second line. *)
Lemma gap_split_counterexample :
  (ExamQuestions.y1 GapExample.first_line - ExamQuestions.y1 GapExample.second_line == 50)%Q /\
  Qlt_bool (ExamQuestions.gap_threshold (ExamQuestions.avg_size GapExample.first_line))
    (ExamQuestions.y1 GapExample.first_line - ExamQuestions.y1 GapExample.second_line) = true /\
  ExamQuestions.extract_questions [GapExample.first_line; GapExample.second_line]
    = [lit "Alpha Beta"].
Proof. vm_compute. repeat split; reflexivity. Qed.

(** ** Matcher lemmas *)

Lemma insert_by_perm {A} (before : A -> A -> bool) (x : A) (l : list A) :
  Permutation (insert_by before x l) (x :: l).
Proof.
  induction l as [|y l IH]; simpl; [reflexivity |].
  destruct (before x y); [reflexivity |].
  rewrite IH. apply perm_swap.
Qed.

Lemma stable_sort_perm {A} (before : A -> A -> bool) (l : list A) :
  Permutation (stable_sort before l) l.
Proof.
  unfold stable_sort.
  assert (H : forall acc, Permutation (fold_left (fun acc x => insert_by before x acc) l acc)
                                      (acc ++ l)).
  { induction l as [|x l IH]; intros acc; simpl.
    - rewrite app_nil_r; reflexivity.
    - rewrite IH, insert_by_perm.
      rewrite <- Permutation_middle. reflexivity. }
  apply H.
Qed.

Lemma in_firstn {A} (n : nat) (l : list A) (x : A) : In x (firstn n l) -> In x l.
Proof.
  intros H. rewrite <- (firstn_skipn n l). apply in_or_app; left; exact H.
Qed.

Lemma slice_upto_incl {A} (l : list A) (k : Z) (x : A) :
  In x (slice_upto l k) -> In x l.
Proof. unfold slice_upto; destruct (0 <=? k)%Z; apply in_firstn. Qed.

Lemma slice_upto_length {A} (l : list A) (k : Z) :
  (0 <= k)%Z -> (length (slice_upto l k) <= Z.to_nat k)%nat.
Proof.
  intros Hk. unfold slice_upto.
  destruct (Z.leb_spec 0 k); [| lia].
  apply firstn_le_length.
Qed.

(** Record emitted for the pair [(s, q)] of topic [topic] at [page0]. *)
Definition record_of (page0 : option Z) (topic : pystr) (sq : Q * pystr) : MatchRecord :=
  let '(s, q) := sq in mkMatchRecord page0 topic q (round3 s) (confidence s).

(** The working list of unmatched questions after the pair [(s, q)]. *)
Definition claim (ue : list pystr) (sq : Q * pystr) : list pystr :=
  let '(_, q) := sq in if str_in q ue then remove_first q ue else ue.

Lemma emit_fold (page0 : option Z) (topic : pystr) (top : list (Q * pystr)) (st : MatchState) :
  fold_left (emit page0 topic) top st
  = mkMatchState (results st ++ map (record_of page0 topic) top)
      (unmatched_slides st) (fold_left claim top (unmatched_exam st)).
Proof.
  revert st; induction top as [|[s q] top IH]; intros st; simpl.
  - rewrite app_nil_r; destruct st; reflexivity.
  - rewrite IH; simpl. rewrite <- app_assoc. reflexivity.
Qed.

(** [top] of the topic [topic]. *)
Definition topic_top (aliases : alias_table) (min_score : Q) (max_matches : Z)
    (norm_exam : list (pystr * pystr)) (topic : pystr) : list (Q * pystr) :=
  slice_upto (sort_by_score (score_candidates min_score (normalize aliases topic) norm_exam))
    max_matches.

Lemma topic_step_eq aliases min_score max_matches norm_exam st page0 topic :
  let top := topic_top aliases min_score max_matches norm_exam topic in
  topic_step aliases min_score max_matches norm_exam st (page0, topic)
  = mkMatchState (results st ++ map (record_of page0 topic) top)
      (unmatched_slides st ++ match top with [] => [(page0, topic)] | _ => [] end)
      (fold_left claim top (unmatched_exam st)).
Proof.
  cbv zeta. unfold topic_step. fold (topic_top aliases min_score max_matches norm_exam topic).
  destruct (topic_top aliases min_score max_matches norm_exam topic) as [|x top] eqn:E.
  - simpl. rewrite !app_nil_r. reflexivity.
  - rewrite emit_fold, app_nil_r. reflexivity.
Qed.

Lemma score_candidates_spec min_score nt norm_exam s q :
  In (s, q) (score_candidates min_score nt norm_exam) ->
  min_score <= s /\ exists nq, In (q, nq) norm_exam.
Proof.
  unfold score_candidates.
  assert (H : forall acc,
    In (s, q) (fold_left (fun scored '(orig_q, norm_q) =>
         let s := combined_score nt norm_q in
         if Qle_bool min_score s then scored ++ [(s, orig_q)] else scored) norm_exam acc) ->
    In (s, q) acc \/ (min_score <= s /\ exists nq, In (q, nq) norm_exam)).
  { induction norm_exam as [|[oq nq] ne IH]; intros acc Hin; simpl in Hin; [left; exact Hin |].
    destruct (Qle_bool min_score (combined_score nt nq)) eqn:Hle.
    - destruct (IH _ Hin) as [H | [H1 [nq' H2]]].
      + apply in_app_or in H as [H | [H | []]]; [left; exact H |].
        inversion H; subst. right. split.
        * apply Qle_bool_iff; exact Hle.
        * exists nq; left; reflexivity.
      + right; split; [exact H1 | exists nq'; right; exact H2].
    - destruct (IH _ Hin) as [H | [H1 [nq' H2]]]; [left; exact H |].
      right; split; [exact H1 | exists nq'; right; exact H2]. }
  intros Hin. destruct (H [] Hin) as [[] | R]; exact R.
Qed.

Lemma topic_top_spec aliases min_score max_matches norm_exam topic s q :
  In (s, q) (topic_top aliases min_score max_matches norm_exam topic) ->
  min_score <= s /\ exists nq, In (q, nq) norm_exam.
Proof.
  unfold topic_top. intros H.
  apply slice_upto_incl in H.
  unfold sort_by_score in H.
  apply (Permutation_in _ (stable_sort_perm _ _)) in H.
  eapply score_candidates_spec; exact H.
Qed.

Lemma topic_count_app (t : pystr) (l1 l2 : list MatchRecord) :
  topic_count t (l1 ++ l2) = (topic_count t l1 + topic_count t l2)%nat.
Proof. unfold topic_count. rewrite filter_app, length_app. reflexivity. Qed.

Lemma topic_count_records (t : pystr) page0 topic (top : list (Q * pystr)) :
  topic_count t (map (record_of page0 topic) top)
  = if ascii_list_eqb topic t then length top else O.
Proof.
  unfold topic_count.
  induction top as [|[s q] top IH]; simpl.
  - destruct (ascii_list_eqb topic t); reflexivity.
  - destruct (ascii_list_eqb topic t); simpl; rewrite IH; reflexivity.
Qed.

(** Number of input (page, topic) pairs whose topic is [t]. *)
Definition slides_with_topic (t : pystr) (slides : list slide_entry) : nat :=
  length (filter (fun pt => ascii_list_eqb (snd pt) t) slides).

(** C1 (amended): for [maxMatches >= 0], each input (page, topic) pair
    contributes at most [maxMatches] records, so the records with topic [t]
    number at most [maxMatches] times the input pairs with topic [t]. *)
Theorem match_cap_per_input_pair slides exam aliases min_score max_matches t :
  (0 <= max_matches)%Z ->
  let '(res, _, _) := match_topics slides exam aliases min_score max_matches in
  (topic_count t res <= Z.to_nat max_matches * slides_with_topic t slides)%nat.
Proof.
  intros Hk. unfold match_topics. cbv zeta.
  set (ne := map (fun q => (q, normalize aliases q)) exam).
  assert (H : forall st,
    (topic_count t (results (fold_left (topic_step aliases min_score max_matches ne) slides st))
     <= topic_count t (results st) + Z.to_nat max_matches * slides_with_topic t slides)%nat).
  { induction slides as [|[p tp] sl IH]; intros st; cbn [fold_left].
    - unfold slides_with_topic; simpl; lia.
    - eapply Nat.le_trans; [apply IH |].
      rewrite topic_step_eq; cbn [results].
      rewrite topic_count_app, topic_count_records.
      unfold slides_with_topic; simpl. fold (slides_with_topic t sl).
      pose proof (slice_upto_length
                    (sort_by_score (score_candidates min_score (normalize aliases tp) ne))
                    max_matches Hk) as Hl.
      fold (topic_top aliases min_score max_matches ne tp) in Hl.
      destruct (ascii_list_eqb tp t); simpl; fold (slides_with_topic t sl); nia. }
  specialize (H (mkMatchState [] [] exam)). simpl in H. exact H.
Qed.

Lemma match_cap_per_input_pair_witness :
  (0 <= 1)%Z /\
  (topic_count (lit "clustering")
     (fst (fst (match_topics [(Some 1%Z, lit "clustering"); (Some 2%Z, lit "clustering")]
                 [lit "clustering"] default_aliases (1 # 2) 1)))
   <= 1 * 2)%nat.
Proof.
  split; [lia |].
  pose proof (match_cap_per_input_pair
                [(Some 1%Z, lit "clustering"); (Some 2%Z, lit "clustering")]
                [lit "clustering"] default_aliases (1 # 2) 1 (lit "clustering")) as H.
  destruct (match_topics _ _ _ _ _) as [[res us] ue] eqn:E.
  simpl. apply H. lia.
Defined.

(** Invariants of the loop over the slides. *)
Lemma match_loop_inv aliases min_score max_matches ne (I : MatchState -> Prop)
    (slides : list slide_entry) (st : MatchState) :
  (forall st pt, In pt slides -> I st ->
     I (topic_step aliases min_score max_matches ne st pt)) ->
  I st -> I (fold_left (topic_step aliases min_score max_matches ne) slides st).
Proof.
  revert st; induction slides as [|pt sl IH]; intros st Hstep Hst; simpl; [exact Hst |].
  apply IH.
  - intros st' pt' Hin; apply Hstep; right; exact Hin.
  - apply Hstep; [left; reflexivity | exact Hst].
Qed.

Lemma str_count_cons q x l :
  str_count q (x :: l) = ((if ascii_list_eqb q x then 1 else 0) + str_count q l)%nat.
Proof. unfold str_count; simpl. destruct (ascii_list_eqb q x); reflexivity. Qed.

Lemma remove_first_count_same q l :
  In q l -> (1 <= str_count q l /\ str_count q (remove_first q l) = str_count q l - 1)%nat.
Proof.
  induction l as [|x l IH]; simpl; [intros [] |].
  intros Hin. rewrite str_count_cons.
  destruct (ascii_list_eqb q x) eqn:E.
  - lia.
  - destruct Hin as [-> | Hin]; [rewrite ascii_list_eqb_refl in E; discriminate |].
    rewrite str_count_cons, E. specialize (IH Hin). lia.
Qed.

Lemma remove_first_count_other q q' l :
  q' <> q -> str_count q (remove_first q' l) = str_count q l.
Proof.
  intros Hne. induction l as [|x l IH]; simpl; [reflexivity |].
  destruct (ascii_list_eqb q' x) eqn:E.
  - apply ascii_list_eqb_eq in E; subst.
    rewrite str_count_cons.
    destruct (ascii_list_eqb q x) eqn:E'; [apply ascii_list_eqb_eq in E'; congruence | reflexivity].
  - rewrite !str_count_cons, IH. reflexivity.
Qed.

Lemma str_count_not_in q l : str_in q l = false -> str_count q l = O.
Proof.
  induction l as [|x l IH]; simpl; [reflexivity |].
  unfold str_in; simpl. intros H. apply orb_false_iff in H as [H1 H2].
  rewrite str_count_cons, H1. apply IH. exact H2.
Qed.

Lemma remove_first_incl q l x : In x (remove_first q l) -> In x l.
Proof.
  induction l as [|y l IH]; simpl; [tauto |].
  destruct (ascii_list_eqb q y); simpl; [tauto |].
  intros [H | H]; [left; exact H | right; apply IH; exact H].
Qed.

Lemma question_count_app q l1 l2 :
  question_count q (l1 ++ l2) = (question_count q l1 + question_count q l2)%nat.
Proof. unfold question_count. rewrite filter_app, length_app. reflexivity. Qed.

(** The complement invariant, one claimed pair at a time. *)
Lemma claim_fold_complement (e : nat) q page0 topic (top : list (Q * pystr)) res ue :
  (str_count q ue + Nat.min e (question_count q res) = e)%nat ->
  (str_count q (fold_left claim top ue)
   + Nat.min e (question_count q (res ++ map (record_of page0 topic) top)) = e)%nat.
Proof.
  revert res ue; induction top as [|[s q'] top IH]; intros res ue Hinv;
    cbn [fold_left map].
  - rewrite app_nil_r; exact Hinv.
  - replace (res ++ record_of page0 topic (s, q') :: map (record_of page0 topic) top)
      with ((res ++ [record_of page0 topic (s, q')]) ++ map (record_of page0 topic) top)
      by (rewrite <- app_assoc; reflexivity).
    apply IH.
    rewrite question_count_app.
    unfold question_count at 2; unfold claim, record_of; simpl.
    destruct (ascii_list_eqb q' q) eqn:Eq.
    + apply ascii_list_eqb_eq in Eq; subst q'. simpl.
      destruct (str_in q ue) eqn:Hin.
      * apply str_in_In in Hin.
        destruct (remove_first_count_same q ue Hin) as [H1 H2].
        rewrite H2. lia.
      * rewrite (str_count_not_in q ue Hin) in Hinv |- *. lia.
    + simpl. rewrite Nat.add_0_r.
      destruct (str_in q' ue).
      * rewrite remove_first_count_other; [exact Hinv |].
        intros ->; rewrite ascii_list_eqb_refl in Eq; discriminate.
      * exact Hinv.
Qed.

(** C3: with duplicates counted, each copy of a question is either claimed
    or left unmatched: the copies of [q] in the exam input split into
    [min(copies, records with question q)] claimed copies and the copies
    still in the unmatched-questions output. *)
Theorem unmatched_complement slides exam aliases min_score max_matches q :
  let '(res, _, ue) := match_topics slides exam aliases min_score max_matches in
  str_count q exam = (Nat.min (str_count q exam) (question_count q res) + str_count q ue)%nat.
Proof.
  unfold match_topics; cbv zeta.
  set (ne := map (fun q => (q, normalize aliases q)) exam).
  set (e := str_count q exam).
  pose (I := fun st : MatchState =>
               (str_count q (unmatched_exam st) + Nat.min e (question_count q (results st)) = e)%nat).
  assert (H : I (fold_left (topic_step aliases min_score max_matches ne) slides
                   (mkMatchState [] [] exam))).
  { apply match_loop_inv.
    - intros st [p t] _ Hst. unfold I in *.
      rewrite topic_step_eq; cbn [results unmatched_exam].
      apply claim_fold_complement; exact Hst.
    - unfold I; simpl. unfold question_count; simpl. lia. }
  unfold I in H. lia.
Qed.

(** A record of one topic step is an old record or a record of the topic's top list. *)
Lemma topic_step_results aliases min_score max_matches ne st page0 topic r :
  In r (results (topic_step aliases min_score max_matches ne st (page0, topic))) ->
  In r (results st) \/
  exists s q, In (s, q) (topic_top aliases min_score max_matches ne topic)
              /\ r = record_of page0 topic (s, q).
Proof.
  rewrite topic_step_eq; cbn [results]. intros H.
  apply in_app_or in H as [H | H]; [left; exact H | right].
  apply in_map_iff in H as [[s q] [Hr Hin]].
  exists s, q; split; [exact Hin | symmetry; exact Hr].
Qed.

Lemma claim_fold_incl top ue x : In x (fold_left claim top ue) -> In x ue.
Proof.
  revert ue; induction top as [|[s q] top IH]; intros ue H; simpl in H; [exact H |].
  apply IH in H. destruct (str_in q ue); [eapply remove_first_incl; exact H | exact H].
Qed.

(** Where the outputs of the matcher come from. *)
Lemma match_topics_origin slides exam aliases min_score max_matches :
  let '(res, us, ue) := match_topics slides exam aliases min_score max_matches in
  (forall r, In r res -> In (exam_question r) exam
                         /\ exists s, min_score <= s /\ score r = round3 s) /\
  (forall e, In e us -> In e slides) /\
  (forall x, In x ue -> In x exam).
Proof.
  unfold match_topics; cbv zeta.
  set (ne := map (fun q => (q, normalize aliases q)) exam).
  apply (match_loop_inv aliases min_score max_matches ne
    (fun st => (forall r, In r (results st) -> In (exam_question r) exam
                   /\ exists s, min_score <= s /\ score r = round3 s) /\
               (forall e, In e (unmatched_slides st) -> In e slides) /\
               (forall x, In x (unmatched_exam st) -> In x exam))).
  - intros st [p t] Hpt [Hr [Hus Hue]]. split; [| split].
    + intros r Hin. apply topic_step_results in Hin as [Hin | [s [q [Htop ->]]]];
        [apply Hr; exact Hin |].
      apply topic_top_spec in Htop as [Hs [nq Hnq]].
      unfold ne in Hnq. apply in_map_iff in Hnq as [q' [Heq Hq']].
      injection Heq as -> _. simpl. split; [exact Hq' | exists s; split; [exact Hs | reflexivity]].
    + intros e Hin. rewrite topic_step_eq in Hin; cbn [unmatched_slides] in Hin.
      apply in_app_or in Hin as [Hin | Hin]; [apply Hus; exact Hin |].
      destruct (topic_top _ _ _ _ _); [| destruct Hin].
      destruct Hin as [<- | []]; exact Hpt.
    + intros x Hin. rewrite topic_step_eq in Hin; cbn [unmatched_exam] in Hin.
      apply Hue. eapply claim_fold_incl; exact Hin.
  - simpl. split; [intros r [] | split; [intros e [] | intros x Hx; exact Hx]].
Qed.

Lemma Qlt_bool_iff (x y : Q) : Qlt_bool x y = true <-> x < y.
Proof.
  unfold Qlt_bool. rewrite negb_true_iff. split; intros H.
  - apply Qnot_le_lt. intros H'. apply Qle_bool_iff in H'. congruence.
  - destruct (Qle_bool y x) eqn:E; [| reflexivity].
    apply Qle_bool_iff in E. exfalso. apply (Qlt_not_le _ _ H E).
Qed.

Lemma round_half_even_bounds x :
  (Qfloor x <= round_half_even x)%Z /\ x - (1 # 2) <= inject_Z (round_half_even x).
Proof.
  assert (Hfl : (Qnum x / Zpos (Qden x))%Z = Qfloor x) by (destruct x; reflexivity).
  unfold round_half_even. rewrite Hfl.
  pose proof (Qfloor_le x) as H1. pose proof (Qlt_floor x) as H2.
  rewrite inject_Z_plus in H2. change (inject_Z 1) with 1 in H2.
  destruct (Qlt_bool (x - inject_Z (Qfloor x)) (1 # 2)) eqn:E1.
  - apply Qlt_bool_iff in E1. split; [lia | lra].
  - assert (E1' : ~ x - inject_Z (Qfloor x) < 1 # 2) by (rewrite <- Qlt_bool_iff; congruence).
    destruct (Qlt_bool (1 # 2) (x - inject_Z (Qfloor x))) eqn:E2.
    + rewrite inject_Z_plus; change (inject_Z 1) with 1. split; [lia | lra].
    + assert (E2' : ~ 1 # 2 < x - inject_Z (Qfloor x)) by (rewrite <- Qlt_bool_iff; congruence).
      destruct (Z.even (Qfloor x)); [split; [lia | lra] |].
      rewrite inject_Z_plus; change (inject_Z 1) with 1. split; [lia | lra].
Qed.

(** [round(s, 3)] loses at most half a unit of the third decimal. *)
Lemma round3_lower s : s - (1 # 2000) <= round3 s.
Proof.
  unfold round3. destruct (round_half_even_bounds (s * 1000)) as [_ H].
  set (r := inject_Z (round_half_even (s * 1000))) in *.
  assert (E : r / 1000 == r * (1 # 1000)) by reflexivity.
  rewrite E. lra.
Qed.

(** [round(s, 3)] never falls below a bound with at most 3 decimals that [s] reaches. *)
Lemma round3_above_grid s k : inject_Z k / 1000 <= s -> inject_Z k / 1000 <= round3 s.
Proof.
  intros H. unfold round3.
  destruct (round_half_even_bounds (s * 1000)) as [Hf _].
  assert (Hk : inject_Z k <= s * 1000).
  { assert (E : inject_Z k / 1000 == inject_Z k * (1 # 1000)) by reflexivity.
    rewrite E in H. lra. }
  apply Qfloor_resp_le in Hk. rewrite Qfloor_Z in Hk.
  assert (Hz : inject_Z k <= inject_Z (round_half_even (s * 1000)))
    by (rewrite <- Zle_Qle; lia).
  assert (E1 : inject_Z k / 1000 == inject_Z k * (1 # 1000)) by reflexivity.
  assert (E2 : inject_Z (round_half_even (s * 1000)) / 1000
               == inject_Z (round_half_even (s * 1000)) * (1 # 1000)) by reflexivity.
  rewrite E1, E2. lra.
Qed.

(** C2 (amended): the threshold is applied to the unrounded combined score;
    the stored score is that score rounded to 3 decimals, so it is at least
    [minScore - 0.0005], and at least [minScore] when [minScore] has at most
    3 decimals. *)
Theorem min_score_up_to_rounding slides exam aliases min_score max_matches r :
  In r (fst (fst (match_topics slides exam aliases min_score max_matches))) ->
  (exists s, min_score <= s /\ score r = round3 s)
  /\ min_score - (1 # 2000) <= score r
  /\ (forall k : Z, min_score == inject_Z k / 1000 -> min_score <= score r).
Proof.
  intros Hin.
  pose proof (match_topics_origin slides exam aliases min_score max_matches) as Ho.
  destruct (match_topics slides exam aliases min_score max_matches) as [[res us] ue].
  destruct Ho as [Hres _]. simpl in Hin.
  destruct (Hres r Hin) as [_ [s [Hs Hsc]]].
  split; [exists s; split; assumption |]. rewrite Hsc. split.
  - pose proof (round3_lower s). lra.
  - intros k Hk. rewrite Hk. apply round3_above_grid. rewrite <- Hk. exact Hs.
Qed.

Lemma min_score_up_to_rounding_witness :
  let res := fst (fst (match_topics [(None, lit "x")] [lit "xbcdef"] default_aliases
                         (1141 # 10000) 2)) in
  let r := hd (mkMatchRecord None [] [] 0 []) res in
  In r res /\
  ((exists s, 1141 # 10000 <= s /\ score r = round3 s)
   /\ (1141 # 10000) - (1 # 2000) <= score r
   /\ (forall k : Z, 1141 # 10000 == inject_Z k / 1000 -> 1141 # 10000 <= score r)).
Proof.
  cbv zeta. split.
  - vm_compute. left. reflexivity.
  - apply (min_score_up_to_rounding [(None, lit "x")] [lit "xbcdef"] default_aliases
             (1141 # 10000) 2).
    vm_compute. left. reflexivity.
Defined.

Lemma parse_exam_long lines x : In x (parse_exam lines) -> (4 <= length x)%nat.
Proof.
  unfold parse_exam. rewrite in_flat_map. intros [raw [_ Hx]].
  unfold parse_exam_line in Hx.
  destruct (strip raw) as [|c cs] eqn:E; [destruct Hx |].
  destruct (length (c :: cs) <? 4)%nat eqn:L; [destruct Hx |].
  destruct Hx as [<- | []]. apply Nat.ltb_ge in L. exact L.
Qed.

(** C9: a line whose stripped text has fewer than 4 characters is dropped by
    [parse_exam]; the stripped text is then in no record of the matcher and
    in neither residual list (the unmatched slides all come from the slides
    input, and the unmatched questions from the exam input). *)
Theorem short_exam_lines_dropped lines raw slides aliases min_score max_matches :
  In raw lines -> (length (strip raw) < 4)%nat ->
  let exam := parse_exam lines in
  let '(res, us, ue) := match_topics slides exam aliases min_score max_matches in
  ~ In (strip raw) exam
  /\ (forall r, In r res -> exam_question r <> strip raw)
  /\ ~ In (strip raw) ue
  /\ (forall e, In e us -> In e slides).
Proof.
  intros _ Hlen. cbv zeta.
  pose proof (match_topics_origin slides (parse_exam lines) aliases min_score max_matches) as Ho.
  destruct (match_topics slides (parse_exam lines) aliases min_score max_matches)
    as [[res us] ue].
  destruct Ho as [Hres [Hus Hue]].
  assert (Hnot : ~ In (strip raw) (parse_exam lines)).
  { intros H. apply parse_exam_long in H. lia. }
  split; [exact Hnot | split; [| split]].
  - intros r Hr Heq. apply Hnot. rewrite <- Heq. apply (Hres r Hr).
  - intros H. apply Hnot, Hue, H.
  - exact Hus.
Qed.

Lemma short_exam_lines_dropped_witness :
  In (lit " ab ") [lit "What is a decision tree?"; lit " ab "]
  /\ (length (strip (lit " ab ")) < 4)%nat
  /\ (let exam := parse_exam [lit "What is a decision tree?"; lit " ab "] in
      let '(res, us, ue) := match_topics [(Some 1%Z, lit "Decision Trees")] exam
                              default_aliases (1 # 2) 3 in
      ~ In (strip (lit " ab ")) exam
      /\ (forall r, In r res -> exam_question r <> strip (lit " ab "))
      /\ ~ In (strip (lit " ab ")) ue
      /\ (forall e, In e us -> In e [(Some 1%Z, lit "Decision Trees")])).
Proof.
  assert (Hin : In (lit " ab ") [lit "What is a decision tree?"; lit " ab "])
    by (right; left; reflexivity).
  assert (Hlen : (length (strip (lit " ab ")) < 4)%nat) by (vm_compute; lia).
  split; [exact Hin | split; [exact Hlen |]].
  exact (short_exam_lines_dropped _ _ [(Some 1%Z, lit "Decision Trees")] default_aliases
           (1 # 2) 3 Hin Hlen).
Defined.

(** ** C10: slide lines with an empty topic *)

Lemma lstrip_app_nonspace p c t :
  is_space c = false -> lstrip (p ++ c :: t) = lstrip p ++ c :: t.
Proof.
  intros Hc. induction p as [|d p IH]; simpl; [rewrite Hc; reflexivity |].
  destruct (is_space d); [exact IH | reflexivity].
Qed.

Lemma lstrip_app_spaces u v : forallb is_space u = true -> lstrip (u ++ v) = lstrip v.
Proof.
  induction u as [|d u IH]; simpl; [reflexivity |].
  intros H. apply andb_true_iff in H as [H1 H2]. rewrite H1. apply IH, H2.
Qed.

Lemma lstrip_no_space p : forallb (fun c => negb (is_space c)) p = true -> lstrip p = p.
Proof.
  destruct p as [|c p]; simpl; [reflexivity |].
  intros H. apply andb_true_iff in H as [H _]. destruct (is_space c); [discriminate | reflexivity].
Qed.

Lemma forallb_rev_iff {A} (f : A -> bool) l : forallb f (rev l) = forallb f l.
Proof.
  destruct (forallb f l) eqn:E.
  - apply forallb_forall. intros x Hx. apply in_rev in Hx.
    rewrite forallb_forall in E. apply E, Hx.
  - apply not_true_is_false. intros H. rewrite forallb_forall in H.
    apply not_true_iff_false in E. apply E. apply forallb_forall. intros x Hx.
    apply H. apply in_rev. rewrite rev_involutive. exact Hx.
Qed.

Lemma split_bar_app x y : ~ In bar x -> split_bar (x ++ bar :: y) = Some (x, y).
Proof.
  induction x as [|c x IH]; simpl; intros Hn.
  - reflexivity.
  - destruct (Ascii.eqb c bar) eqn:E.
    + apply Ascii.eqb_eq in E. exfalso. apply Hn. left. exact E.
    + rewrite IH; [reflexivity | intros H; apply Hn; right; exact H].
Qed.

(** Characters allowed in the page part: neither whitespace nor a bar. *)
Definition page_char (c : ascii) : bool := negb (is_space c) && negb (Ascii.eqb c bar).

Lemma parse_slide_line_empty_topic p t z :
  forallb page_char p = true -> py_int p = Some z -> forallb is_space t = true ->
  parse_slide_line (p ++ bar :: t) = [].
Proof.
  intros Hp Hz Ht.
  assert (Hns : forallb (fun c => negb (is_space c)) p = true).
  { apply forallb_forall. intros c Hc. rewrite forallb_forall in Hp.
    specialize (Hp c Hc). unfold page_char in Hp. apply andb_true_iff in Hp as [H _]. exact H. }
  assert (Hnb : ~ In bar p).
  { intros Hin. rewrite forallb_forall in Hp. specialize (Hp bar Hin).
    unfold page_char in Hp. rewrite Ascii.eqb_refl in Hp.
    rewrite andb_false_r in Hp. discriminate. }
  assert (Hbar : is_space bar = false) by reflexivity.
  assert (Hstrip_p : strip p = p).
  { unfold strip, rstrip. rewrite (lstrip_no_space p Hns).
    rewrite lstrip_no_space; [apply rev_involutive |].
    rewrite forallb_rev_iff. exact Hns. }
  assert (Hs : strip (p ++ bar :: t) = p ++ [bar]).
  { unfold strip, rstrip. rewrite lstrip_app_nonspace by exact Hbar.
    rewrite (lstrip_no_space p Hns).
    rewrite rev_app_distr. cbn [rev]. rewrite <- app_assoc. cbn [app].
    rewrite lstrip_app_spaces by (rewrite forallb_rev_iff; exact Ht).
    cbn [lstrip]. rewrite Hbar. cbn [rev]. rewrite rev_involutive. reflexivity. }
  unfold parse_slide_line. rewrite Hs.
  destruct (p ++ [bar]) as [|c r] eqn:E; [destruct p; discriminate |].
  rewrite <- E, split_bar_app by exact Hnb.
  rewrite Hstrip_p, Hz. reflexivity.
Qed.

(** C10: a slides line ["<page>|"] followed by whitespace only (the page part
    an integer with no whitespace or bar in it) contributes no pair to
    [parse_slides]; and the unmatched-topics output of the matcher only
    holds pairs parsed from the other lines, so none of them has that page
    unless another line gives it. *)
Theorem empty_slide_title_dropped pre post p t z exam aliases min_score max_matches :
  forallb page_char p = true -> py_int p = Some z -> forallb is_space t = true ->
  let slides := parse_slides (pre ++ (p ++ bar :: t) :: post) in
  slides = parse_slides pre ++ parse_slides post
  /\ (forall e, In e (snd (fst (match_topics slides exam aliases min_score max_matches))) ->
        In e (parse_slides pre ++ parse_slides post))
  /\ ((forall e, In e (parse_slides pre ++ parse_slides post) -> fst e <> Some z) ->
      forall e, In e (snd (fst (match_topics slides exam aliases min_score max_matches))) ->
        fst e <> Some z).
Proof.
  intros Hp Hz Ht. cbv zeta.
  assert (Heq : parse_slides (pre ++ (p ++ bar :: t) :: post)
                = parse_slides pre ++ parse_slides post).
  { unfold parse_slides. rewrite flat_map_app. cbn [flat_map].
    rewrite (parse_slide_line_empty_topic p t z Hp Hz Ht). reflexivity. }
  rewrite Heq.
  pose proof (match_topics_origin (parse_slides pre ++ parse_slides post) exam aliases
                min_score max_matches) as Ho.
  destruct (match_topics (parse_slides pre ++ parse_slides post) exam aliases
              min_score max_matches) as [[res us] ue].
  destruct Ho as [_ [Hus _]]. cbn [fst snd].
  split; [reflexivity | split; [exact Hus |]].
  intros Hpage e He. apply Hpage, Hus, He.
Qed.

Lemma empty_slide_title_dropped_witness :
  (forallb page_char (lit "2") = true /\ py_int (lit "2") = Some 2%Z
   /\ forallb is_space (lit "  ") = true)
  /\ (let slides := parse_slides ([lit "1|Decision Trees"] ++ (lit "2" ++ bar :: lit "  ")
                                   :: [lit "3|Clustering"]) in
      slides = parse_slides [lit "1|Decision Trees"] ++ parse_slides [lit "3|Clustering"]
      /\ (forall e, In e (snd (fst (match_topics slides [lit "What is clustering?"]
                                    default_aliases (1 # 2) 3))) ->
            In e (parse_slides [lit "1|Decision Trees"] ++ parse_slides [lit "3|Clustering"]))
      /\ ((forall e, In e (parse_slides [lit "1|Decision Trees"]
                           ++ parse_slides [lit "3|Clustering"]) -> fst e <> Some 2%Z) ->
          forall e, In e (snd (fst (match_topics slides [lit "What is clustering?"]
                                    default_aliases (1 # 2) 3))) ->
            fst e <> Some 2%Z)).
Proof.
  assert (H1 : forallb page_char (lit "2") = true) by reflexivity.
  assert (H2 : py_int (lit "2") = Some 2%Z) by reflexivity.
  assert (H3 : forallb is_space (lit "  ") = true) by reflexivity.
  split; [split; [exact H1 | split; [exact H2 | exact H3]] |].
  exact (empty_slide_title_dropped [lit "1|Decision Trees"] [lit "3|Clustering"]
           (lit "2") (lit "  ") 2%Z [lit "What is clustering?"] default_aliases
           (1 # 2) 3 H1 H2 H3).
Defined.

(** ** C8: the gap test of the question segmenter *)

Module GapRule.
Import ExamQuestions.

Lemma flush_last (st : SegState) :
  last_y (flush st) = last_y st /\ last_size (flush st) = last_size st /\ buf (flush st) = [].
Proof. unfold flush. repeat split. Qed.

Lemma flush_idem_items (st : SegState) : items (flush (flush st)) = items (flush st).
Proof. unfold flush at 1. simpl. reflexivity. Qed.

Lemma before_append_last (st : SegState) (ln : Line) :
  last_y (fst (before_append st ln)) = last_y st
  /\ last_size (fst (before_append st ln)) = last_size st.
Proof.
  unfold before_append.
  destruct (gap_flushes st ln); destruct (bullet_match (text ln)); simpl; auto.
Qed.

Lemma step_last (st : SegState) (ln : Line) :
  header_match (lower (text ln)) = false ->
  last_y (step st ln) = Some (y1 ln)
  /\ last_size (step st ln)
     = (if Qeq_bool (avg_size ln) 0 then last_size st else Some (avg_size ln)).
Proof.
  intros Hh. unfold step. rewrite Hh.
  destruct (before_append_last st ln) as [_ Hs].
  destruct (before_append st ln) as [st' t]. simpl in Hs.
  destruct (ends_with_qmark (rstrip t)); simpl; split; try reflexivity;
    destruct (Qeq_bool (avg_size ln) 0); try reflexivity; exact Hs.
Qed.

(** The kept lines of a run: those that are not headers. *)
Definition kept (pre : list Line) : list Line :=
  filter (fun ln => negb (header_match (lower (text ln)))) pre.

(** [y1] of the last kept line, if any. *)
Definition last_kept_y (pre : list Line) : option Q :=
  option_map y1 (hd_error (rev (kept pre))).

(** The average glyph size of the last kept line whose size is nonzero. *)
Definition last_nonzero_size (pre : list Line) : option Q :=
  option_map avg_size
    (hd_error (rev (filter (fun ln => negb (Qeq_bool (avg_size ln) 0)) (kept pre)))).

Lemma run_last (pre : list Line) :
  last_y (fold_left step pre init) = last_kept_y pre
  /\ last_size (fold_left step pre init) = last_nonzero_size pre.
Proof.
  induction pre as [|ln pre IH] using rev_ind; [split; reflexivity |].
  rewrite fold_left_app. cbn [fold_left].
  unfold last_kept_y, last_nonzero_size, kept. rewrite filter_app. cbn [filter].
  destruct (header_match (lower (text ln))) eqn:Hh; cbn [negb].
  - unfold step. rewrite Hh. rewrite app_nil_r. exact IH.
  - destruct (step_last (fold_left step pre init) ln Hh) as [Hy Hs].
    rewrite Hy, Hs. destruct IH as [_ IHs].
    rewrite filter_app. cbn [filter].
    destruct (Qeq_bool (avg_size ln) 0); cbn [negb].
    + rewrite app_nil_r. rewrite rev_app_distr. split; [reflexivity | exact IHs].
    + rewrite !rev_app_distr. split; reflexivity.
Qed.

(** C8 (amended): in a run of [extract_questions] over [pre ++ ln :: _],
    with [ln] kept (not a header), the state reached before [ln] has as
    [last_y] the [y1] of the last kept line of [pre] and as [last_size]
    the size of the last kept line of [pre] with a nonzero size.  The gap
    test before appending [ln] fires exactly when both exist and
    [last_y - ln.y1 > max(20, 2.2 * last_size)]; there is no gap test while
    no kept line had a nonzero size.  The buffer is flushed into the items
    before [ln] is appended exactly when the gap test fires or [ln] starts
    with a bullet; otherwise the state is left as it is.  The text of
    [ln] (its bullet removed) is then appended to the buffer.  Two lines of
    sizes 10 and 10 with a gap of 50 give two items. *)
Theorem gap_flush_rule (pre : list Line) (ln : Line) :
  header_match (lower (text ln)) = false ->
  let st := fold_left step pre init in
  last_y st = last_kept_y pre
  /\ last_size st = last_nonzero_size pre
  /\ gap_flushes st ln = match last_kept_y pre, last_nonzero_size pre with
                          | Some ly, Some s => Qlt_bool (gap_threshold s) (ly - y1 ln)
                          | _, _ => false
                          end
  /\ ((gap_flushes st ln = true \/ bullet_match (text ln) <> None) ->
      buf (fst (before_append st ln)) = []
      /\ items (fst (before_append st ln)) = items (flush st))
  /\ (gap_flushes st ln = false -> bullet_match (text ln) = None ->
      before_append st ln = (st, text ln))
  /\ (ends_with_qmark (rstrip (snd (before_append st ln))) = false ->
      buf (step st ln) = buf (fst (before_append st ln)) ++ [snd (before_append st ln)])
  /\ extract_questions [GapExample.sized_first_line; GapExample.second_line]
     = [lit "Alpha"; lit "Beta"].
Proof.
  intros Hh. cbv zeta.
  destruct (run_last pre) as [Hy Hs].
  split; [exact Hy | split; [exact Hs | split; [| split; [| split; [| split]]]]].
  - unfold gap_flushes. rewrite Hy, Hs. reflexivity.
  - intros Hc. unfold before_append.
    destruct (gap_flushes _ ln) eqn:Hg; destruct (bullet_match (text ln)) eqn:Hb; simpl.
    + split; [reflexivity | apply flush_idem_items].
    + split; reflexivity.
    + split; reflexivity.
    + destruct Hc as [Hc | Hc]; [discriminate | contradiction].
  - intros Hg Hb. unfold before_append. rewrite Hg, Hb. reflexivity.
  - set (st0 := fold_left step pre init). unfold step. rewrite Hh.
    destruct (before_append st0 ln) as [st' t]. cbn [fst snd].
    intros Hq. rewrite Hq. reflexivity.
  - vm_compute. reflexivity.
Qed.

End GapRule.

Lemma gap_flush_rule_witness :
  ExamQuestions.header_match (lower (ExamQuestions.text GapExample.second_line)) = false
  /\ ExamQuestions.gap_flushes
       (fold_left ExamQuestions.step [GapExample.sized_first_line] ExamQuestions.init)
       GapExample.second_line
     = match GapRule.last_kept_y [GapExample.sized_first_line],
             GapRule.last_nonzero_size [GapExample.sized_first_line] with
       | Some ly, Some s => Qlt_bool (ExamQuestions.gap_threshold s)
                              (ly - ExamQuestions.y1 GapExample.second_line)
       | _, _ => false
       end
  /\ GapRule.last_nonzero_size [GapExample.sized_first_line] = Some 10
  /\ ExamQuestions.extract_questions [GapExample.sized_first_line; GapExample.second_line]
     = [lit "Alpha"; lit "Beta"].
Proof.
  assert (Hh : ExamQuestions.header_match
                 (lower (ExamQuestions.text GapExample.second_line)) = false)
    by (vm_compute; reflexivity).
  destruct (GapRule.gap_flush_rule [GapExample.sized_first_line] GapExample.second_line Hh)
    as [_ [Hs [Hg [_ [_ [_ He]]]]]].
  split; [exact Hh | split; [exact Hg | split; [| exact He]]].
  vm_compute. reflexivity.
Defined.

(** ** C6: the continuation merge of the title selector *)

Section KeySort.
Variable A : Type.
Variable f : A -> Q.

Let before (u v : A) : bool := Qlt_bool (f u) (f v).
Let R (u v : A) : Prop := f u <= f v.

Lemma insert_by_hdrel (a x : A) (l : list A) :
  HdRel R a l -> R a x -> HdRel R a (insert_by before x l).
Proof.
  intros Hh Hax. destruct l as [|y r]; simpl; [constructor; exact Hax |].
  destruct (before x y); constructor; [exact Hax |]. inversion Hh; assumption.
Qed.

Lemma insert_by_key_sorted (x : A) (l : list A) :
  Sorted R l -> Sorted R (insert_by before x l).
Proof.
  induction l as [|y r IH]; intros Hs; simpl; [repeat constructor |].
  destruct (before x y) eqn:E.
  - constructor; [exact Hs |]. constructor. unfold before in E.
    apply Qlt_bool_iff in E. unfold R. apply Qlt_le_weak, E.
  - apply Sorted_inv in Hs as [Hr Hh]. constructor; [apply IH, Hr |].
    apply insert_by_hdrel; [exact Hh |].
    unfold before, Qlt_bool in E. apply negb_false_iff, Qle_bool_iff in E. exact E.
Qed.

Lemma stable_sort_key_sorted (l : list A) :
  StronglySorted R (stable_sort before l).
Proof.
  apply Sorted_StronglySorted.
  - intros u v w H1 H2. unfold R in *. eapply Qle_trans; eassumption.
  - unfold stable_sort.
    assert (H : forall acc, Sorted R acc ->
                Sorted R (fold_left (fun acc x => insert_by before x acc) l acc)).
    { induction l as [|x l IH]; intros acc Hacc; simpl; [exact Hacc |].
      apply IH, insert_by_key_sorted, Hacc. }
    apply H. constructor.
Qed.

End KeySort.

Lemma filter_none {A} (f : A -> bool) (l : list A) :
  (forall x, In x l -> f x = false) -> filter f l = [].
Proof.
  induction l as [|x l IH]; simpl; intros H; [reflexivity |].
  rewrite H by (left; reflexivity). apply IH. intros y Hy. apply H. right; exact Hy.
Qed.

(** Stability of [stable_sort] on a rational key: the elements of any one
    key value keep their input order. *)
Section KeyStable.
Variable A : Type.
Variable f : A -> Q.

Let before (u v : A) : bool := Qlt_bool (f u) (f v).
Let R (u v : A) : Prop := f u <= f v.
Let at_key (q : Q) (u : A) : bool := Qeq_bool (f u) q.

Lemma insert_by_key_filter (q : Q) (x : A) (l : list A) :
  StronglySorted R l ->
  filter (at_key q) (insert_by before x l)
  = filter (at_key q) l ++ (if at_key q x then [x] else []).
Proof.
  induction l as [|y r IH]; intros Hs; cbn [insert_by].
  - simpl. destruct (at_key q x); reflexivity.
  - apply StronglySorted_inv in Hs as [Hr Hall].
    destruct (before x y) eqn:E.
    + unfold before in E. apply Qlt_bool_iff in E.
      destruct (at_key q x) eqn:Ex.
      * unfold at_key in Ex. apply Qeq_bool_iff in Ex.
        assert (Hn : forall z, In z (y :: r) -> at_key q z = false).
        { intros z Hz. unfold at_key. apply not_true_is_false. intros Hq.
          apply Qeq_bool_iff in Hq.
          assert (Hyz : f y <= f z).
          { destruct Hz as [<- | Hz]; [apply Qle_refl |].
            rewrite Forall_forall in Hall. apply (Hall z Hz). }
          lra. }
        assert (Ex' : at_key q x = true) by (apply Qeq_bool_iff; exact Ex).
        change (filter (at_key q) (x :: y :: r))
          with (if at_key q x then x :: filter (at_key q) (y :: r) else filter (at_key q) (y :: r)).
        rewrite Ex', (filter_none _ (y :: r) Hn). reflexivity.
      * cbn [filter]. rewrite Ex, app_nil_r. reflexivity.
    + cbn [filter]. rewrite (IH Hr).
      destruct (at_key q y); reflexivity.
Qed.

Lemma stable_sort_key_filter (q : Q) (l : list A) :
  filter (at_key q) (stable_sort before l) = filter (at_key q) l.
Proof.
  unfold stable_sort.
  assert (H : forall acc, Sorted R acc ->
    filter (at_key q) (fold_left (fun acc x => insert_by before x acc) l acc)
    = filter (at_key q) acc ++ filter (at_key q) l).
  { induction l as [|x l IH]; intros acc Hacc; simpl.
    - rewrite app_nil_r. reflexivity.
    - rewrite IH by (apply (insert_by_key_sorted A f), Hacc).
      rewrite insert_by_key_filter.
      + rewrite <- app_assoc. destruct (at_key q x); reflexivity.
      + apply Sorted_StronglySorted; [| exact Hacc].
        intros u v w H1 H2. unfold R in *. eapply Qle_trans; eassumption. }
  rewrite H by constructor. reflexivity.
Qed.

End KeyStable.

Lemma strongly_sorted_prefix {A} (R : A -> A -> Prop) (pre post : list A) (x : A) :
  StronglySorted R (pre ++ x :: post) -> forall c, In c pre -> R c x.
Proof.
  induction pre as [|y pre IH]; simpl; intros Hs c Hc; [destruct Hc |].
  apply StronglySorted_inv in Hs as [Hs Hall].
  destruct Hc as [<- | Hc].
  - rewrite Forall_forall in Hall. apply Hall, in_or_app. right; left; reflexivity.
  - apply IH; assumption.
Qed.

Module TitleRule.
Import SlideTitles.

Lemma select_title_incl h top_ratio lines title lines' :
  select_title h top_ratio lines = Some (title, lines') ->
  forall x, In x lines' -> In x lines.
Proof.
  unfold select_title.
  destruct (filter _ lines) as [|y ys] eqn:Ef.
  - destruct (stable_sort title_before lines) as [|t ts] eqn:Es; [discriminate |].
    intros H; injection H as _ <-. intros x Hx. rewrite <- Es in Hx.
    apply (Permutation_in _ (stable_sort_perm _ _)) in Hx. exact Hx.
  - destruct (stable_sort title_before (y :: ys)); [discriminate |].
    intros H; injection H as _ <-. tauto.
Qed.

Lemma candidates_below_in title lines ln :
  In ln (candidates_below title lines) -> In ln lines /\ y0 ln < y0 title.
Proof.
  unfold candidates_below. intros H.
  apply (Permutation_in _ (stable_sort_perm _ _)) in H.
  apply filter_In in H as [Hin Hc]. split; [exact Hin |].
  apply andb_true_iff in Hc as [Hc _]. apply Qlt_bool_iff, Hc.
Qed.

Lemma candidates_below_sorted title lines :
  StronglySorted (fun u v => Qabs (y1 u - y0 title) <= Qabs (y1 v - y0 title))
    (candidates_below title lines).
Proof.
  unfold candidates_below.
  apply (stable_sort_key_sorted LineInfo (fun u => Qabs (y1 u - y0 title))).
Qed.

(** The page's line list after title selection: unchanged when some line
    lies in the top area, sorted in place by [(avg_size, y1)] descending
    otherwise. *)
Lemma select_title_lines h top_ratio lines title lines' :
  select_title h top_ratio lines = Some (title, lines') ->
  lines' = match filter (fun ln => Qle_bool (page_height_or_default h * (1 - top_ratio)) (y1 ln))
                   lines with
           | [] => stable_sort title_before lines
           | _ => lines
           end.
Proof.
  unfold select_title.
  destruct (filter _ lines) as [|y ys].
  - destruct (stable_sort title_before lines); [discriminate |].
    intros H; injection H as _ <-. reflexivity.
  - destruct (stable_sort title_before (y :: ys)); [discriminate |].
    intros H; injection H as _ <-. reflexivity.
Qed.

(** The size condition of [candidates_below] always holds. *)
Lemma candidates_size_cond title ln :
  Qle_bool 0 (Qabs (avg_size ln - avg_size title) / Qmax (avg_size title) (1 # 1000000)) = true.
Proof.
  apply Qle_bool_iff. apply Qle_shift_div_l.
  - eapply Qlt_le_trans; [| apply Q.le_max_r]. reflexivity.
  - rewrite Qmult_0_l. apply Qabs_nonneg.
Qed.

(** Candidates at one distance [q] from the title keep the order they have
    in the line list. *)
Lemma candidates_below_ties title lines q :
  filter (fun u => Qeq_bool (Qabs (y1 u - y0 title)) q) (candidates_below title lines)
  = filter (fun u => Qlt_bool (y0 u) (y0 title) && Qeq_bool (Qabs (y1 u - y0 title)) q) lines.
Proof.
  unfold candidates_below.
  rewrite (stable_sort_key_filter LineInfo (fun u => Qabs (y1 u - y0 title)) q).
  induction lines as [|u r IH]; [reflexivity |]. cbn [filter].
  rewrite candidates_size_cond, andb_true_r.
  destruct (Qlt_bool (y0 u) (y0 title)); cbn [filter andb];
    [destruct (Qeq_bool (Qabs (y1 u - y0 title)) q); [f_equal |]; exact IH | exact IH].
Qed.

Lemma merge_test_true thr title ln :
  merge_test thr title ln = Some true ->
  thr <= Qmin (avg_size title) (avg_size ln) / Qmax (avg_size title) (avg_size ln)
  /\ y0 title - y1 ln <= avg_size title * (16 # 10)
  /\ Qabs (x0 ln - x0 title) <= Qmax 10 (avg_size title * (8 # 10)).
Proof.
  unfold merge_test. destruct (Qeq_bool _ 0); [discriminate |].
  intros H; injection H as H.
  apply andb_true_iff in H as [H H3]. apply andb_true_iff in H as [H1 H2].
  apply Qle_bool_iff in H1, H2, H3. auto.
Qed.

Lemma merge_loop_spec thr title cands out :
  merge_loop thr title cands = Some out ->
  (out = text title /\ forall c, In c cands -> merge_test thr title c = Some false)
  \/ exists pre ln post, cands = pre ++ ln :: post
     /\ (forall c, In c pre -> merge_test thr title c = Some false)
     /\ merge_test thr title ln = Some true
     /\ out = merge_text (text title) (text ln).
Proof.
  induction cands as [|ln r IH]; simpl; intros H.
  - left. injection H as <-. split; [reflexivity | intros c []].
  - destruct (merge_test thr title ln) as [[|]|] eqn:Et; [| | discriminate].
    + right. exists [], ln, r. injection H as <-.
      split; [reflexivity | split; [intros c [] | split; [exact Et | reflexivity]]].
    + destruct (IH H) as [[Ho Hall] | [pre [l [post [Hc [Hpre [Hl Ho]]]]]]].
      * left. split; [exact Ho |]. intros c [<- | Hc]; [exact Et | apply Hall, Hc].
      * right. exists (ln :: pre), l, post. rewrite Hc.
        split; [reflexivity | split; [| split; [exact Hl | exact Ho]]].
        intros c [<- | Hin]; [exact Et | apply Hpre, Hin].
Qed.

(** C6 (amended): on a page with lines, the candidates are the lines whose
    bottom edge is below the title's, in order of [|y1 - title.y0|];
    candidates at the same distance keep their order in the line list
    [lines'] as title selection leaves it: the page's order when some line
    lies in the top area, the order by [(avg_size, y1)] descending when
    none does (the fallback sorts that list in place).  The output is
    either the title text, when every candidate fails the merge test, or
    the title text and the text of exactly one candidate: the first one in
    that order that passes all three conditions (size ratio at least
    [mergeThreshold], vertical gap at most [1.6 * size], left edges within
    [max(10, 0.8 * size)]).  Every candidate before it is at most as close
    and fails the test; it need not be the closest. *)
Theorem title_merge_rule page_idx h lines top_ratio thr idx out :
  lines <> [] ->
  extract_title_page page_idx h lines top_ratio thr = Some (idx, out) ->
  exists title lines',
    select_title h top_ratio lines = Some (title, lines')
    /\ lines' = match filter (fun ln => Qle_bool (page_height_or_default h * (1 - top_ratio))
                                                 (y1 ln)) lines with
                | [] => stable_sort title_before lines
                | _ => lines
                end
    /\ (forall q, filter (fun u => Qeq_bool (Qabs (y1 u - y0 title)) q)
                         (candidates_below title lines')
                  = filter (fun u => Qlt_bool (y0 u) (y0 title)
                                     && Qeq_bool (Qabs (y1 u - y0 title)) q) lines')
    /\ ((out = text title
         /\ forall c, In c (candidates_below title lines') -> merge_test thr title c = Some false)
        \/ exists pre ln post,
             candidates_below title lines' = pre ++ ln :: post
             /\ In ln lines /\ y0 ln < y0 title
             /\ (forall c, In c pre -> merge_test thr title c = Some false
                                       /\ Qabs (y1 c - y0 title) <= Qabs (y1 ln - y0 title))
             /\ thr <= Qmin (avg_size title) (avg_size ln) / Qmax (avg_size title) (avg_size ln)
             /\ y0 title - y1 ln <= avg_size title * (16 # 10)
             /\ Qabs (x0 ln - x0 title) <= Qmax 10 (avg_size title * (8 # 10))
             /\ out = merge_text (text title) (text ln)).
Proof.
  intros Hne. unfold extract_title_page.
  destruct lines as [|l0 ls]; [contradiction |].
  destruct (select_title h top_ratio (l0 :: ls)) as [[title lines']|] eqn:Es; [| discriminate].
  destruct (merge_loop thr title (candidates_below title lines')) as [o|] eqn:Em;
    [| discriminate].
  simpl. intros H; injection H as _ <-.
  exists title, lines'. split; [reflexivity |].
  split; [exact (select_title_lines _ _ _ _ _ Es) |].
  split; [intros q; apply candidates_below_ties |].
  destruct (merge_loop_spec _ _ _ _ Em) as [Hl | [pre [ln [post [Hc [Hpre [Ht Ho]]]]]]];
    [left; exact Hl | right].
  assert (Hin : In ln (candidates_below title lines'))
    by (rewrite Hc; apply in_or_app; right; left; reflexivity).
  destruct (candidates_below_in _ _ _ Hin) as [Hin' Hy].
  pose proof (candidates_below_sorted title lines') as Hsort. rewrite Hc in Hsort.
  destruct (merge_test_true _ _ _ Ht) as [H1 [H2 H3]].
  exists pre, ln, post. split; [exact Hc |].
  split; [exact (select_title_incl _ _ _ _ _ Es ln Hin') |].
  split; [exact Hy |]. split.
  - intros c Hcp. split; [apply Hpre, Hcp |].
    exact (strongly_sorted_prefix _ _ _ _ Hsort c Hcp).
  - auto.
Qed.

End TitleRule.

Lemma title_merge_rule_witness :
  TieExample.page_lines <> []
  /\ SlideTitles.extract_title_page 1 None TieExample.page_lines (35 # 100) (9 # 10)
     = Some (1%nat, lit "T B")
  /\ exists title lines',
       SlideTitles.select_title None (35 # 100) TieExample.page_lines = Some (title, lines')
       /\ lines' = match filter (fun ln => Qle_bool (SlideTitles.page_height_or_default None
                                                     * (1 - (35 # 100))) (SlideTitles.y1 ln))
                          TieExample.page_lines with
                   | [] => stable_sort SlideTitles.title_before TieExample.page_lines
                   | _ => TieExample.page_lines
                   end
       /\ (forall q, filter (fun u => Qeq_bool (Qabs (SlideTitles.y1 u - SlideTitles.y0 title)) q)
                            (SlideTitles.candidates_below title lines')
                     = filter (fun u => Qlt_bool (SlideTitles.y0 u) (SlideTitles.y0 title)
                                        && Qeq_bool (Qabs (SlideTitles.y1 u
                                                           - SlideTitles.y0 title)) q) lines').
Proof.
  assert (Hne : TieExample.page_lines <> []) by discriminate.
  assert (He : SlideTitles.extract_title_page 1 None TieExample.page_lines (35 # 100) (9 # 10)
               = Some (1%nat, lit "T B")) by (vm_compute; reflexivity).
  split; [exact Hne | split; [exact He |]].
  destruct (TitleRule.title_merge_rule 1 None TieExample.page_lines (35 # 100) (9 # 10)
              1 (lit "T B") Hne He) as [title [lines' [H1 [H2 [H3 _]]]]].
  exists title, lines'. split; [exact H1 | split; [exact H2 | exact H3]].
Defined.

(** ** C7: re-normalizing the output of [normalize] *)

Module NormalizeFacts.

(** The characters [normalize] keeps inside tokens: [a-z0-9]. *)
Definition plain (c : ascii) : bool := is_ascii_lower c || is_ascii_digit c.

Definition good_token (tok : pystr) : Prop := tok <> [] /\ forallb plain tok = true.

Lemma plain_lower c : plain c = true -> lower_char c = c.
Proof.
  destruct c as [[] [] [] [] [] [] [] []]; intros H; vm_compute in H |- *;
    first [discriminate | reflexivity].
Qed.

Lemma plain_punct c : plain c = true -> punct_char c = c.
Proof.
  destruct c as [[] [] [] [] [] [] [] []]; intros H; vm_compute in H |- *;
    first [discriminate | reflexivity].
Qed.

Lemma plain_not_space c : plain c = true -> is_space c = false.
Proof.
  destruct c as [[] [] [] [] [] [] [] []]; intros H; vm_compute in H |- *;
    first [discriminate | reflexivity].
Qed.

Lemma punct_char_class c : plain (punct_char c) || is_space (punct_char c) = true.
Proof. destruct c as [[] [] [] [] [] [] [] []]; vm_compute; reflexivity. Qed.

Lemma join_cons (sep x : pystr) (r : list pystr) :
  r <> [] -> join sep (x :: r) = x ++ sep ++ join sep r.
Proof. destruct r; [contradiction | reflexivity]. Qed.

Lemma join_chars toks c :
  Forall good_token toks -> In c (join [sp] toks) -> c = sp \/ plain c = true.
Proof.
  induction toks as [|x r IH]; intros Hg Hin; [destruct Hin |].
  apply Forall_cons_iff in Hg as [[_ Hx] Hr].
  assert (Hxc : In c x -> plain c = true)
    by (intros H; rewrite forallb_forall in Hx; apply Hx, H).
  destruct r as [|y r']; [right; apply Hxc, Hin |].
  rewrite join_cons in Hin by discriminate.
  apply in_app_or in Hin as [H | [H | H]]; [right; apply Hxc, H | left; symmetry; exact H |].
  apply IH; assumption.
Qed.

Lemma map_id_on {A} (f : A -> A) (l : list A) : (forall c, In c l -> f c = c) -> map f l = l.
Proof.
  induction l as [|x l IH]; simpl; intros H; [reflexivity |].
  rewrite H by (left; reflexivity). rewrite IH; [reflexivity |]. intros c Hc; apply H; right; exact Hc.
Qed.

Lemma join_map_id (f : ascii -> ascii) toks :
  (forall c, plain c = true -> f c = c) -> f sp = sp ->
  Forall good_token toks -> map f (join [sp] toks) = join [sp] toks.
Proof.
  intros Hf Hsp Hg. apply map_id_on. intros c Hc.
  destruct (join_chars toks c Hg Hc) as [-> | H]; [exact Hsp | apply Hf, H].
Qed.

Lemma join_first toks :
  Forall good_token toks -> toks <> [] ->
  exists c u, join [sp] toks = c :: u /\ plain c = true.
Proof.
  intros Hg Hne. destruct toks as [|x r]; [contradiction |].
  apply Forall_cons_iff in Hg as [[Hx Hp] _].
  destruct x as [|c x']; [contradiction |]. simpl in Hp. apply andb_true_iff in Hp as [Hc _].
  destruct r as [|y r']; [exists c, x'; split; [reflexivity | exact Hc] |].
  rewrite join_cons by discriminate. exists c, (x' ++ [sp] ++ join [sp] (y :: r')).
  split; [reflexivity | exact Hc].
Qed.

Lemma join_last toks :
  Forall good_token toks -> toks <> [] ->
  exists u d, join [sp] toks = u ++ [d] /\ plain d = true.
Proof.
  induction toks as [|x r IH]; intros Hg Hne; [contradiction |].
  apply Forall_cons_iff in Hg as [[Hx Hp] Hr].
  destruct r as [|y r'].
  - destruct (exists_last Hx) as [u [d ->]]. exists u, d. split; [reflexivity |].
    rewrite forallb_app in Hp. apply andb_true_iff in Hp as [_ Hd].
    simpl in Hd. rewrite andb_true_r in Hd. exact Hd.
  - destruct (IH Hr ltac:(discriminate)) as [u [d [Hj Hd]]].
    rewrite join_cons by discriminate. rewrite Hj.
    exists (x ++ [sp] ++ u), d. split; [rewrite <- !app_assoc; reflexivity | exact Hd].
Qed.

Lemma join_strip toks : Forall good_token toks -> strip (join [sp] toks) = join [sp] toks.
Proof.
  intros Hg. destruct toks as [|x r]; [reflexivity |].
  destruct (join_first (x :: r) Hg ltac:(discriminate)) as [c [u [Hj Hc]]].
  destruct (join_last (x :: r) Hg ltac:(discriminate)) as [v [d [Hj' Hd]]].
  unfold strip. rewrite Hj. cbn [lstrip]. rewrite (plain_not_space c Hc).
  rewrite <- Hj, Hj'. unfold rstrip. rewrite rev_app_distr. cbn [rev app lstrip].
  rewrite (plain_not_space d Hd). cbn [rev]. rewrite rev_involutive. reflexivity.
Qed.

Lemma collapse_ws_word (b : bool) (x r : pystr) :
  x <> [] -> forallb plain x = true ->
  collapse_ws b (x ++ r) = x ++ collapse_ws false r.
Proof.
  revert b; induction x as [|c x' IH]; intros b Hne Hp; [contradiction |].
  simpl in Hp. apply andb_true_iff in Hp as [Hc Hp].
  cbn [app collapse_ws]. rewrite (plain_not_space c Hc).
  destruct x' as [|c' x'']; [reflexivity |].
  rewrite IH by (discriminate || exact Hp). reflexivity.
Qed.

Lemma join_collapse toks (b : bool) :
  Forall good_token toks -> collapse_ws b (join [sp] toks) = join [sp] toks.
Proof.
  revert b; induction toks as [|x r IH]; intros b Hg; [reflexivity |].
  apply Forall_cons_iff in Hg as [[Hx Hp] Hr].
  destruct r as [|y r'].
  - cbn [join]. rewrite <- (app_nil_r x) at 1.
    rewrite collapse_ws_word by assumption. rewrite app_nil_r. reflexivity.
  - rewrite join_cons by discriminate.
    rewrite collapse_ws_word by assumption. cbn [app collapse_ws].
    replace (is_space sp) with true by reflexivity.
    rewrite IH by exact Hr. reflexivity.
Qed.

Lemma split_aux_word (cur x r : pystr) :
  forallb plain x = true -> split_aux cur (x ++ r) = split_aux (rev x ++ cur) r.
Proof.
  revert cur; induction x as [|c x' IH]; intros cur Hp; [reflexivity |].
  simpl in Hp. apply andb_true_iff in Hp as [Hc Hp].
  cbn [app split_aux]. rewrite (plain_not_space c Hc), IH by exact Hp.
  cbn [rev]. rewrite <- app_assoc. reflexivity.
Qed.

Lemma join_split toks : Forall good_token toks -> split_ws (join [sp] toks) = toks.
Proof.
  unfold split_ws. induction toks as [|x r IH]; intros Hg; [reflexivity |].
  apply Forall_cons_iff in Hg as [[Hx Hp] Hr].
  assert (Hrev : rev x <> []) by (intros H; apply Hx; rewrite <- (rev_involutive x), H; reflexivity).
  destruct r as [|y r'].
  - cbn [join]. rewrite <- (app_nil_r x) at 1. rewrite split_aux_word by exact Hp.
    rewrite app_nil_r. cbn [split_aux]. destruct (rev x) eqn:E; [contradiction |].
    rewrite <- E, rev_involutive. reflexivity.
  - rewrite join_cons by discriminate. rewrite split_aux_word by exact Hp.
    rewrite app_nil_r. cbn [app split_aux]. replace (is_space sp) with true by reflexivity.
    destruct (rev x) eqn:E; [contradiction |]. rewrite <- E, rev_involutive, IH by exact Hr.
    reflexivity.
Qed.

(** Characters of the string [normalize] splits: [a-z0-9] or whitespace. *)
Definition plain_or_space (c : ascii) : bool := plain c || is_space c.

Lemma lstrip_incl s c : In c (lstrip s) -> In c s.
Proof.
  induction s as [|d s IH]; simpl; [tauto |].
  destruct (is_space d); [intros H; right; apply IH, H | tauto].
Qed.

Lemma strip_incl s c : In c (strip s) -> In c s.
Proof.
  unfold strip, rstrip. intros H. apply in_rev in H. apply lstrip_incl in H.
  apply in_rev in H. apply lstrip_incl, H.
Qed.

Lemma collapse_ws_incl b s c : In c (collapse_ws b s) -> In c s \/ c = sp.
Proof.
  revert b; induction s as [|d s IH]; intros b; simpl; [tauto |].
  destruct (is_space d); [destruct b |]; simpl.
  - intros H. destruct (IH true H); tauto.
  - intros [H | H]; [right; symmetry; exact H | destruct (IH true H); tauto].
  - intros [H | H]; [left; left; exact H | destruct (IH false H); tauto].
Qed.

Lemma split_aux_good cur s :
  forallb plain cur = true -> forallb plain_or_space s = true ->
  Forall good_token (split_aux cur s).
Proof.
  revert cur; induction s as [|c s IH]; intros cur Hcur Hs; simpl.
  - destruct cur as [|d cur']; [constructor |]. constructor; [| constructor].
    split; [| rewrite forallb_rev_iff; exact Hcur].
    intros H. apply (f_equal (@length ascii)) in H. rewrite length_rev in H. discriminate.
  - simpl in Hs. apply andb_true_iff in Hs as [Hc Hs].
    destruct (is_space c) eqn:Esp.
    + destruct cur as [|d cur']; [apply IH; [reflexivity | exact Hs] |].
      constructor; [| apply IH; [reflexivity | exact Hs]].
      split; [| rewrite forallb_rev_iff; exact Hcur].
      intros H. apply (f_equal (@length ascii)) in H. rewrite length_rev in H. discriminate.
    + apply IH; [| exact Hs]. simpl. rewrite Hcur, andb_true_r.
      unfold plain_or_space in Hc. rewrite Esp, orb_false_r in Hc. exact Hc.
Qed.

(** The tokens [normalize] joins. *)
Definition norm_tokens (aliases : alias_table) (text : pystr) : list pystr :=
  filter not_stopword
    (split_ws (strip (collapse_ws false (punct_sub (apply_aliases aliases
       (strip (lower text))))))).

Lemma normalize_join aliases text :
  normalize aliases text = join [sp] (norm_tokens aliases text).
Proof. reflexivity. Qed.

Lemma norm_tokens_good aliases text :
  Forall good_token (norm_tokens aliases text)
  /\ forallb not_stopword (norm_tokens aliases text) = true.
Proof.
  unfold norm_tokens. split.
  - apply Forall_forall. intros x Hx. apply filter_In in Hx as [Hx _]. revert x Hx.
    apply Forall_forall. apply split_aux_good; [reflexivity |].
    apply forallb_forall. intros c Hc.
    apply strip_incl in Hc. apply collapse_ws_incl in Hc as [Hc | ->]; [| reflexivity].
    unfold punct_sub in Hc. apply in_map_iff in Hc as [d [<- _]].
    apply punct_char_class.
  - apply forallb_forall. intros x Hx. apply filter_In in Hx as [_ Hx]. exact Hx.
Qed.

Lemma filter_id_on {A} (f : A -> bool) (l : list A) : forallb f l = true -> filter f l = l.
Proof.
  induction l as [|x l IH]; simpl; [reflexivity |].
  intros H. apply andb_true_iff in H as [H1 H2]. rewrite H1, IH by exact H2. reflexivity.
Qed.

(** C7 (amended): the output of [normalize] is normalized again to itself
    whenever the alias stage leaves it unchanged; every other stage
    (lower-casing, stripping, punctuation, whitespace, stopwords) is the
    identity on it. *)
Theorem normalize_idempotent_when_alias_stable aliases s :
  apply_aliases aliases (normalize aliases s) = normalize aliases s ->
  normalize aliases (normalize aliases s) = normalize aliases s.
Proof.
  intros Ha.
  destruct (norm_tokens_good aliases s) as [Hg Hsw].
  set (toks := norm_tokens aliases s) in *.
  assert (Hn : normalize aliases s = join [sp] toks) by apply normalize_join.
  unfold normalize at 1. rewrite Hn.
  unfold lower. rewrite (join_map_id lower_char toks plain_lower eq_refl Hg).
  rewrite (join_strip toks Hg). rewrite <- Hn, Ha, Hn.
  unfold punct_sub. rewrite (join_map_id punct_char toks plain_punct eq_refl Hg).
  rewrite (join_collapse toks false Hg), (join_strip toks Hg), (join_split toks Hg).
  rewrite (filter_id_on _ _ Hsw). reflexivity.
Qed.

End NormalizeFacts.

Lemma normalize_idempotent_when_alias_stable_witness :
  apply_aliases default_aliases (normalize default_aliases (lit "The Decision Trees"))
    = normalize default_aliases (lit "The Decision Trees")
  /\ normalize default_aliases (normalize default_aliases (lit "The Decision Trees"))
     = normalize default_aliases (lit "The Decision Trees").
Proof.
  assert (H : apply_aliases default_aliases (normalize default_aliases (lit "The Decision Trees"))
              = normalize default_aliases (lit "The Decision Trees")) by (vm_compute; reflexivity).
  split; [exact H |].
  exact (NormalizeFacts.normalize_idempotent_when_alias_stable default_aliases _ H).
Defined.

(** ** C4: bounds of the similarity scores *)

Lemma fold_left_inv {A B} (P : A -> Prop) (f : A -> B -> A) (l : list B) (init : A) :
  (forall x acc, In x l -> P acc -> P (f acc x)) -> P init -> P (fold_left f l init).
Proof.
  revert init; induction l as [|x l IH]; intros init Hf Hi; simpl; [exact Hi |].
  apply IH; [intros y acc Hy; apply Hf; right; exact Hy | apply Hf; [left; reflexivity | exact Hi]].
Qed.

Module DifflibBounds.
Import Difflib.

Lemma run_len_bound (a b : pystr) (blo n i j : nat) :
  (run_len a b blo n i j <= n /\ run_len a b blo n i j <= j + 1 - blo)%nat.
Proof.
  revert i j; induction n as [|n IH]; intros i j; simpl; [lia |].
  destruct ((blo <=? j)%nat && negb (popular b (char_at b j)) && Ascii.eqb (char_at a i) (char_at b j))
    eqn:E; [| lia].
  apply andb_true_iff in E as [E _]. apply andb_true_iff in E as [E _].
  apply Nat.leb_le in E.
  destruct i as [|i']; [lia |]. destruct j as [|j']; [lia |].
  destruct (IH i' j'). lia.
Qed.

Definition in_block (alo ahi blo bhi : nat) (r : nat * nat * nat) : Prop :=
  let '(i, j, k) := r in (alo <= i /\ i + k <= ahi /\ blo <= j /\ j + k <= bhi)%nat.

Lemma scan_in_block (a b : pystr) (alo ahi blo bhi : nat) :
  (alo <= ahi)%nat -> (blo <= bhi)%nat -> in_block alo ahi blo bhi (scan a b alo ahi blo bhi).
Proof.
  intros Ha Hb. unfold scan.
  apply fold_left_inv; [| simpl; lia].
  intros i best Hi Hbest. apply in_seq in Hi.
  apply fold_left_inv; [| exact Hbest].
  intros j [[bi bj] bk] Hj Hb'. apply in_seq in Hj.
  destruct (run_len_bound a b blo (i - alo + 1) i j) as [H1 H2].
  destruct (bk <? run_len a b blo (i - alo + 1) i j)%nat eqn:E; [| exact Hb'].
  apply Nat.ltb_lt in E. simpl. lia.
Qed.

Lemma extend_back_shape (a b : pystr) (m i j k : nat) :
  exists t, (t <= m /\ t <= i /\ t <= j)%nat
            /\ extend_back a b m i j k = (i - t, j - t, k + t)%nat.
Proof.
  revert i j k; induction m as [|m IH]; intros i j k; simpl.
  - exists O. split; [lia |]. rewrite !Nat.sub_0_r, Nat.add_0_r. reflexivity.
  - destruct i as [|i'];
      [exists O; split; [lia | rewrite !Nat.sub_0_r, Nat.add_0_r; reflexivity] |].
    destruct j as [|j'];
      [exists O; split; [lia | rewrite !Nat.sub_0_r, Nat.add_0_r; reflexivity] |].
    destruct (Ascii.eqb (char_at a i') (char_at b j')).
    + destruct (IH i' j' (S k)) as [t [Ht Heq]]. exists (S t). split; [lia |].
      rewrite Heq. simpl. rewrite Nat.add_succ_r. reflexivity.
    + exists O. split; [lia |]. rewrite !Nat.sub_0_r, Nat.add_0_r. reflexivity.
Qed.

Lemma extend_fwd_shape (a b : pystr) (m i j k : nat) :
  exists t, (t <= m)%nat /\ extend_fwd a b m i j k = (i, j, k + t)%nat.
Proof.
  revert k; induction m as [|m IH]; intros k; simpl.
  - exists O. split; [lia |]. rewrite Nat.add_0_r. reflexivity.
  - destruct (Ascii.eqb (char_at a (i + k)) (char_at b (j + k))).
    + destruct (IH (S k)) as [t [Ht Heq]]. exists (S t). split; [lia |].
      rewrite Heq. simpl. rewrite Nat.add_succ_r. reflexivity.
    + exists O. split; [lia |]. rewrite Nat.add_0_r. reflexivity.
Qed.

Lemma find_longest_match_in_block (a b : pystr) (alo ahi blo bhi : nat) :
  (alo <= ahi)%nat -> (blo <= bhi)%nat ->
  in_block alo ahi blo bhi (find_longest_match a b alo ahi blo bhi).
Proof.
  intros Ha Hb. unfold find_longest_match.
  pose proof (scan_in_block a b alo ahi blo bhi Ha Hb) as Hs.
  destruct (scan a b alo ahi blo bhi) as [[i j] k].
  destruct (extend_back_shape a b (Nat.min (i - alo) (j - blo)) i j k) as [t [Ht ->]].
  destruct (extend_fwd_shape a b (Nat.min (ahi - (i - t + (k + t))) (bhi - (j - t + (k + t))))
              (i - t) (j - t) (k + t)) as [u [Hu ->]].
  simpl in *. lia.
Qed.

Lemma matched_bound (fuel : nat) (a b : pystr) :
  forall alo ahi blo bhi, (alo <= ahi)%nat -> (blo <= bhi)%nat ->
  (matched fuel a b alo ahi blo bhi <= ahi - alo
   /\ matched fuel a b alo ahi blo bhi <= bhi - blo)%nat.
Proof.
  induction fuel as [|f IH]; intros alo ahi blo bhi Ha Hb; simpl; [lia |].
  pose proof (find_longest_match_in_block a b alo ahi blo bhi Ha Hb) as Hm.
  destruct (find_longest_match a b alo ahi blo bhi) as [[i j] k]. simpl in Hm.
  destruct (k =? 0)%nat; [lia |].
  destruct ((alo <? i)%nat && (blo <? j)%nat) eqn:E1;
  destruct ((i + k <? ahi)%nat && (j + k <? bhi)%nat) eqn:E2;
  [ destruct (IH alo i blo j) as [H1 H2]; [lia | lia |];
    destruct (IH (i + k)%nat ahi (j + k)%nat bhi) as [H3 H4]; [lia | lia |]
  | destruct (IH alo i blo j) as [H1 H2]; [lia | lia |]
  | destruct (IH (i + k)%nat ahi (j + k)%nat bhi) as [H3 H4]; [lia | lia |]
  | ]; lia.
Qed.

Lemma matches_bound (a b : pystr) :
  (matches a b <= length a /\ matches a b <= length b)%nat.
Proof.
  unfold matches. destruct (matched_bound (S (length a)) a b 0 (length a) 0 (length b))
    as [H1 H2]; lia.
Qed.

End DifflibBounds.

Module DifflibSelf.
Import Difflib.

Section Self.
Variable a : pystr.
Variable lo : nat.

(** A run ending at [(i, j)] is never longer than the run on the diagonal
    ending at [d], [d] one of [i], [j], when the diagonal one may look back
    as far (popularity depends only on the element). *)
Lemma run_to_diag (n : nat) :
  forall n' i j d, (d = i \/ d = j) -> (n <= i + 1 - lo)%nat ->
  (Nat.min n (j + 1 - lo) <= n')%nat ->
  (run_len a a lo n i j <= run_len a a lo n' d d)%nat.
Proof.
  induction n as [|n0 IH]; intros n' i j d Hd Hn Hmin; [simpl; lia |].
  cbn [run_len].
  destruct ((lo <=? j)%nat && negb (popular a (char_at a j)) && Ascii.eqb (char_at a i) (char_at a j))
    eqn:E; [| lia].
  apply andb_true_iff in E as [E E3]. apply andb_true_iff in E as [E1 E2].
  apply Nat.leb_le in E1. apply Ascii.eqb_eq in E3.
  destruct n' as [|n0']; [lia |].
  assert (Ed : ((lo <=? d)%nat && negb (popular a (char_at a d))
                && Ascii.eqb (char_at a d) (char_at a d)) = true).
  { rewrite Ascii.eqb_refl, andb_true_r.
    destruct Hd as [-> | ->].
    - rewrite E3, E2, andb_true_r. apply Nat.leb_le. lia.
    - rewrite E2, andb_true_r. apply Nat.leb_le. exact E1. }
  cbn [run_len]. rewrite Ed.
  destruct i as [|i']; [lia |]. destruct j as [|j']; [lia |].
  apply le_n_S.
  destruct Hd as [-> | ->].
  - apply IH; [left; reflexivity | lia | lia].
  - apply IH; [right; reflexivity | lia | lia].
Qed.

(** The run on the diagonal ending at [p], as row [p] of the scan sees it. *)
Let diag (p : nat) : nat := run_len a a lo (p - lo + 1) p p.

Let row_step (i : nat) (best : nat * nat * nat) (j : nat) : nat * nat * nat :=
  let k := run_len a a lo (i - lo + 1) i j in
  let '(_, _, bestsize) := best in
  if (bestsize <? k)%nat then ((i + 1 - k)%nat, (j + 1 - k)%nat, k) else best.

Let on_diag (best : nat * nat * nat) : Prop := let '(x, y, _) := best in x = y.
Let size (best : nat * nat * nat) : nat := let '(_, _, k) := best in k.

Lemma row_inv (hi i : nat) (best : nat * nat * nat) (len : nat) :
  (lo <= i < hi)%nat -> (len <= hi - lo)%nat ->
  on_diag best -> (forall p, lo <= p < i -> diag p <= size best)%nat ->
  let best' := fold_left (row_step i) (seq lo len) best in
  on_diag best' /\ (forall p, lo <= p < i -> diag p <= size best')%nat
  /\ (i < lo + len -> diag i <= size best')%nat.
Proof.
  intros Hi Hlen Hd Hp. cbv zeta.
  induction len as [|len IH]; [simpl; split; [exact Hd | split; [exact Hp | lia]] |].
  rewrite seq_S, fold_left_app. cbn [fold_left].
  destruct IH as [Hd' [Hp' Hi']]; [lia |].
  set (b := fold_left (row_step i) (seq lo len) best) in *.
  set (c := (lo + len)%nat).
  destruct b as [[x y] kb]. simpl in Hd', Hp', Hi'. subst y.
  unfold row_step.
  destruct (Nat.lt_trichotomy c i) as [Hc | [Hc | Hc]].
  - assert (Hk : (run_len a a lo (i - lo + 1) i c <= diag c)%nat).
    { apply run_to_diag; [right; reflexivity | lia | lia]. }
    assert (Hkb : (diag c <= kb)%nat) by (apply Hp'; unfold c; lia).
    replace (kb <? run_len a a lo (i - lo + 1) i c)%nat with false
      by (symmetry; apply Nat.ltb_ge; lia).
    simpl. split; [reflexivity | split; [exact Hp' | lia]].
  - subst c. rewrite Hc.
    destruct (kb <? run_len a a lo (i - lo + 1) i i)%nat eqn:E; simpl.
    + apply Nat.ltb_lt in E. split; [reflexivity | split].
      * intros p Hp2. specialize (Hp' p Hp2). lia.
      * intros _. unfold diag. lia.
    + apply Nat.ltb_ge in E. split; [reflexivity | split; [exact Hp' |]].
      intros _. unfold diag. exact E.
  - assert (Hk : (run_len a a lo (i - lo + 1) i c <= diag i)%nat).
    { apply run_to_diag; [left; reflexivity | lia | lia]. }
    assert (Hkb : (diag i <= kb)%nat) by (apply Hi'; unfold c in Hc; lia).
    replace (kb <? run_len a a lo (i - lo + 1) i c)%nat with false
      by (symmetry; apply Nat.ltb_ge; lia).
    simpl. split; [reflexivity | split; [exact Hp' | lia]].
Qed.

Lemma scan_self_diag (hi : nat) :
  exists x k, scan a a lo hi lo hi = (x, x, k).
Proof.
  assert (H : forall len, (len <= hi - lo)%nat ->
    let best := fold_left (fun best i => fold_left (row_step i) (seq lo (hi - lo)) best)
                  (seq lo len) (lo, lo, O) in
    on_diag best /\ (forall p, lo <= p < lo + len -> diag p <= size best)%nat).
  { induction len as [|len IH]; intros Hlen; cbv zeta.
    - simpl. split; [reflexivity | lia].
    - rewrite seq_S, fold_left_app. cbn [fold_left].
      destruct IH as [Hd Hp]; [lia |].
      destruct (row_inv hi (lo + len) _ (hi - lo) ltac:(lia) ltac:(lia) Hd Hp)
        as [Hd' [Hp' Hi']].
      split; [exact Hd' |]. intros p Hp2.
      destruct (Nat.eq_dec p (lo + len)) as [-> | Hne]; [apply Hi'; lia | apply Hp'; lia]. }
  destruct (H (hi - lo)%nat (le_n _)) as [Hd _]. cbv zeta in Hd.
  unfold scan. fold row_step.
  change (fun best j => let k := run_len a a lo (_ - lo + 1) _ j in _) with (row_step).
  destruct (fold_left _ _ _) as [[x y] k] eqn:E.
  exists x, k. simpl in Hd. subst y. reflexivity.
Qed.

End Self.

End DifflibSelf.

Module DifflibRatio.
Import Difflib.

Lemma extend_back_self (a : pystr) (m : nat) :
  forall i k, (m <= i)%nat -> extend_back a a m i i k = ((i - m)%nat, (i - m)%nat, (k + m)%nat).
Proof.
  induction m as [|m IH]; intros i k Hm; simpl.
  - rewrite Nat.sub_0_r, Nat.add_0_r. reflexivity.
  - destruct i as [|i']; [lia |]. rewrite Ascii.eqb_refl.
    rewrite IH by lia. rewrite Nat.add_succ_r. reflexivity.
Qed.

Lemma extend_fwd_self (a : pystr) (m : nat) :
  forall i k, extend_fwd a a m i i k = (i, i, (k + m)%nat).
Proof.
  induction m as [|m IH]; intros i k; simpl.
  - rewrite Nat.add_0_r. reflexivity.
  - rewrite Ascii.eqb_refl, IH, Nat.add_succ_r. reflexivity.
Qed.

Lemma find_longest_match_self (a : pystr) (lo hi : nat) :
  (lo <= hi)%nat -> find_longest_match a a lo hi lo hi = (lo, lo, (hi - lo)%nat).
Proof.
  intros Hle. unfold find_longest_match.
  pose proof (DifflibBounds.scan_in_block a a lo hi lo hi Hle Hle) as Hb.
  destruct (DifflibSelf.scan_self_diag a lo hi) as [x [k Hs]].
  rewrite Hs in Hb |- *. simpl in Hb.
  rewrite Nat.min_id, extend_back_self by lia.
  rewrite Nat.min_id, extend_fwd_self.
  replace (x - (x - lo))%nat with lo by lia.
  replace (k + (x - lo) + (hi - (lo + (k + (x - lo)))))%nat with (hi - lo)%nat by lia.
  reflexivity.
Qed.

Lemma matched_self (a : pystr) (f lo hi : nat) :
  (lo <= hi)%nat -> matched (S f) a a lo hi lo hi = (hi - lo)%nat.
Proof.
  intros Hle. cbn [matched]. rewrite find_longest_match_self by exact Hle.
  destruct (hi - lo =? 0)%nat eqn:E; [apply Nat.eqb_eq in E; lia |].
  rewrite Nat.ltb_irrefl. simpl.
  replace (lo + (hi - lo) <? hi)%nat with false by (symmetry; apply Nat.ltb_ge; lia).
  simpl. lia.
Qed.

Lemma matches_self (a : pystr) : matches a a = length a.
Proof. unfold matches. rewrite matched_self by lia. lia. Qed.

End DifflibRatio.

Lemma Qdiv_unit_bounds (x y : Q) : 0 <= x -> x <= y -> 0 < y -> 0 <= x / y /\ x / y <= 1.
Proof.
  intros H0 Hxy Hy. split.
  - apply Qle_shift_div_l; [exact Hy |]. rewrite Qmult_0_l. exact H0.
  - apply Qle_shift_div_r; [exact Hy |]. rewrite Qmult_1_l. exact Hxy.
Qed.

Lemma nat_frac_bounds (p q : nat) :
  (p <= q)%nat -> (q <> 0)%nat ->
  0 <= inject_Z (Z.of_nat p) / inject_Z (Z.of_nat q)
  /\ inject_Z (Z.of_nat p) / inject_Z (Z.of_nat q) <= 1.
Proof.
  intros Hpq Hq. apply Qdiv_unit_bounds.
  - change 0 with (inject_Z 0). rewrite <- Zle_Qle. lia.
  - rewrite <- Zle_Qle. lia.
  - change 0 with (inject_Z 0). rewrite <- Zlt_Qlt. lia.
Qed.

Lemma char_similarity_bounds (a b : pystr) :
  0 <= char_similarity a b /\ char_similarity a b <= 1.
Proof.
  unfold char_similarity, Difflib.ratio.
  destruct (length a + length b =? 0)%nat eqn:E; [split; discriminate |].
  apply Nat.eqb_neq in E.
  destruct (DifflibBounds.matches_bound a b) as [H1 H2].
  apply Qdiv_unit_bounds.
  - assert (0 <= inject_Z (Z.of_nat (Difflib.matches a b)))
      by (change 0 with (inject_Z 0); rewrite <- Zle_Qle; lia).
    lra.
  - assert (Hle : inject_Z (Z.of_nat (2 * Difflib.matches a b))
                  <= inject_Z (Z.of_nat (length a + length b))) by (rewrite <- Zle_Qle; lia).
    rewrite Nat2Z.inj_mul, inject_Z_mult in Hle. exact Hle.
  - change 0 with (inject_Z 0). rewrite <- Zlt_Qlt. lia.
Qed.

Lemma char_similarity_self (a : pystr) : char_similarity a a == 1.
Proof.
  unfold char_similarity, Difflib.ratio. rewrite DifflibRatio.matches_self.
  destruct (length a + length a =? 0)%nat eqn:E; [reflexivity |].
  apply Nat.eqb_neq in E.
  rewrite Nat2Z.inj_add, inject_Z_plus.
  set (n := inject_Z (Z.of_nat (length a))).
  assert (Hn : 0 < n) by (unfold n; change 0 with (inject_Z 0); rewrite <- Zlt_Qlt; lia).
  field. intros H. lra.
Qed.

Lemma dedup_aux_nodup (seen l : list pystr) :
  NoDup (dedup_aux seen l) /\ forall x, In x (dedup_aux seen l) -> ~ In x seen.
Proof.
  revert seen; induction l as [|y l IH]; intros seen; simpl.
  - split; [constructor | intros x []].
  - destruct (str_in y seen) eqn:E; [apply IH |].
    destruct (IH (y :: seen)) as [Hn Hs]. split.
    + constructor; [| exact Hn]. intros H. apply (Hs y H). left; reflexivity.
    + intros x [<- | Hx].
      * intros H. apply str_in_In in H. congruence.
      * intros H. apply (Hs x Hx). right; exact H.
Qed.

Lemma dedup_nonempty (l : list pystr) : l <> [] -> dedup l <> [].
Proof. destruct l as [|y l]; [contradiction |]. intros _. unfold dedup; simpl. discriminate. Qed.

Lemma inter_size_le_l (a b : list pystr) : (inter_size a b <= length a)%nat.
Proof. unfold inter_size. apply filter_length_le. Qed.

Lemma inter_size_le_r (a b : list pystr) : NoDup a -> (inter_size a b <= length b)%nat.
Proof.
  intros Hn. unfold inter_size. apply NoDup_incl_length.
  - apply NoDup_filter, Hn.
  - intros x Hx. apply filter_In in Hx as [_ Hx]. apply str_in_In, Hx.
Qed.

Lemma inter_size_self (a : list pystr) : inter_size a a = length a.
Proof.
  unfold inter_size. rewrite NormalizeFacts.filter_id_on; [reflexivity |].
  apply forallb_forall. intros x Hx. apply str_in_In, Hx.
Qed.

Lemma jaccard_bounds (a b : list pystr) : 0 <= jaccard a b /\ jaccard a b <= 1.
Proof.
  unfold jaccard. destruct a as [|x a]; [split; discriminate |].
  destruct b as [|y b]; [split; discriminate |].
  cbv zeta. destruct (union_size _ _ =? 0)%nat eqn:E; [split; discriminate |].
  apply Nat.eqb_neq in E. apply nat_frac_bounds; [| exact E].
  pose proof (inter_size_le_l (dedup (x :: a)) (dedup (y :: b))).
  unfold union_size in *. lia.
Qed.

Lemma token_overlap_bounds (a b : list pystr) : 0 <= token_overlap a b /\ token_overlap a b <= 1.
Proof.
  unfold token_overlap. destruct a as [|x a]; [split; discriminate |].
  destruct b as [|y b]; [split; discriminate |].
  cbv zeta. destruct (Nat.min _ _ =? 0)%nat eqn:E; [split; discriminate |].
  apply Nat.eqb_neq in E. apply nat_frac_bounds; [| exact E].
  pose proof (inter_size_le_l (dedup (x :: a)) (dedup (y :: b))).
  pose proof (inter_size_le_r (dedup (x :: a)) (dedup (y :: b))
                (proj1 (dedup_aux_nodup [] (x :: a)))).
  lia.
Qed.

Lemma union_size_self (a : list pystr) : union_size a a = length a.
Proof.
  unfold union_size. rewrite filter_none; [simpl; lia |].
  intros x Hx. apply negb_false_iff, str_in_In, Hx.
Qed.

Lemma nat_frac_self (n : nat) : (n <> 0)%nat ->
  inject_Z (Z.of_nat n) / inject_Z (Z.of_nat n) == 1.
Proof.
  intros Hn. field. intros H.
  change 0 with (inject_Z 0) in H. rewrite inject_Z_injective in H. lia.
Qed.

Lemma jaccard_self (t : list pystr) : t <> [] -> jaccard t t == 1.
Proof.
  intros Ht. pose proof (dedup_nonempty t Ht) as Hd.
  unfold jaccard. destruct t as [|x r]; [contradiction |]. cbv zeta.
  rewrite inter_size_self, union_size_self.
  destruct (length (dedup (x :: r)) =? 0)%nat eqn:E.
  - apply Nat.eqb_eq, length_zero_iff_nil in E. contradiction.
  - apply Nat.eqb_neq in E. apply nat_frac_self, E.
Qed.

Lemma token_overlap_self (t : list pystr) : t <> [] -> token_overlap t t == 1.
Proof.
  intros Ht. pose proof (dedup_nonempty t Ht) as Hd.
  unfold token_overlap. destruct t as [|x r]; [contradiction |]. cbv zeta.
  rewrite inter_size_self, Nat.min_id.
  destruct (length (dedup (x :: r)) =? 0)%nat eqn:E.
  - apply Nat.eqb_eq, length_zero_iff_nil in E. contradiction.
  - apply Nat.eqb_neq in E. apply nat_frac_self, E.
Qed.

Lemma combined_score_self_tokens (a : pystr) : tokens a <> [] -> combined_score a a == 1.
Proof.
  intros Ht. unfold combined_score. cbv zeta.
  rewrite (char_similarity_self a), (jaccard_self _ Ht), (token_overlap_self _ Ht).
  reflexivity.
Qed.

Lemma tokens_normalize aliases s :
  tokens (normalize aliases s) = NormalizeFacts.norm_tokens aliases s.
Proof.
  destruct (NormalizeFacts.norm_tokens_good aliases s) as [Hg _].
  unfold tokens. rewrite NormalizeFacts.normalize_join, NormalizeFacts.join_split by exact Hg.
  apply NormalizeFacts.filter_id_on, forallb_forall. intros x Hx.
  rewrite Forall_forall in Hg. destruct (Hg x Hx) as [Hne _].
  destruct x; [contradiction | reflexivity].
Qed.

(** C4: with exact arithmetic, the combined score of any two strings lies
    in [0, 1], and a string that is non-empty after normalization scores 1
    against itself (its character ratio, Jaccard index and token overlap
    are all 1). *)
Theorem combined_score_bounds_and_self :
  (forall a b : pystr, 0 <= combined_score a b /\ combined_score a b <= 1)
  /\ (forall aliases s, normalize aliases s <> [] ->
        combined_score (normalize aliases s) (normalize aliases s) == 1).
Proof.
  split.
  - intros a b. unfold combined_score. cbv zeta.
    destruct (char_similarity_bounds a b).
    destruct (jaccard_bounds (tokens a) (tokens b)).
    destruct (token_overlap_bounds (tokens a) (tokens b)).
    split; lra.
  - intros aliases s Hne. apply combined_score_self_tokens.
    rewrite tokens_normalize. intros H. apply Hne.
    rewrite NormalizeFacts.normalize_join, H. reflexivity.
Qed.

Lemma combined_score_bounds_and_self_witness :
  normalize default_aliases (lit "Decision Trees") <> []
  /\ combined_score (normalize default_aliases (lit "Decision Trees"))
       (normalize default_aliases (lit "Decision Trees")) == 1
  /\ 0 <= combined_score (lit "k-means") (lit "clustering")
  /\ combined_score (lit "k-means") (lit "clustering") <= 1.
Proof.
  assert (Hne : normalize default_aliases (lit "Decision Trees") <> [])
    by (vm_compute; discriminate).
  split; [exact Hne | split].
  - exact (proj2 combined_score_bounds_and_self default_aliases _ Hne).
  - exact (proj1 combined_score_bounds_and_self (lit "k-means") (lit "clustering")).
Defined.
